(** * fix-api-params.py: the route-file rewriter

    A shallow embedding of [scripts/fix-api-params.py] and the properties
    of its rewriting rules and of its per-file read / rewrite / write loop.

    - Python [str] values are sequences of Unicode code points: [text] is
      [list N].
    - [re.sub] is modelled by a backtracking matcher over the fragment of
      the regular-expression language that the five patterns of the script
      use: literal characters, greedy [\s*] and a one-character negative
      lookahead.
    - The file system and the console are an explicit [world]; the body of
      the loop runs in a state-and-exception monad, with the two [except]
      clauses of the script as handlers. *)

From Stdlib Require Import NArith Ascii String List Lia.
From stdpp Require Import base option list strings gmap.

Open Scope N_scope.
Open Scope nat_scope.
Open Scope string_scope.
Open Scope list_scope.

(** ** Text *)

Definition char : Type := N.
Definition text : Type := list char.

(** The code point of an ASCII character. *)
Definition chr (a : ascii) : char := N_of_ascii a.

(** A Python string literal made of ASCII characters. *)
Definition str_of (s : string) : text := map chr (list_ascii_of_string s).

(** The line feed, written [\n] in the Python source. *)
Definition LF : char := 10%N.

Module Re.

(** *** Patterns *)

(** One element of a compiled pattern. *)
Inductive atom : Type :=
| Chr (c : char)        (* a literal character, escaped or not *)
| SpaceStar             (* \s* : greedy repetition of white space *)
| NotAhead (c : char).  (* (?!c) : the next character is not c *)

Definition pattern : Type := list atom.

(** [\s] on [str] patterns: the characters for which [str.isspace] holds. *)
Definition is_space (c : char) : bool :=
  ((9 <=? c) && (c <=? 13) || (28 <=? c) && (c <=? 32)
   || (c =? 133) || (c =? 160) || (c =? 5760)
   || (8192 <=? c) && (c <=? 8202)
   || (c =? 8232) || (c =? 8233) || (c =? 8239) || (c =? 8287)
   || (c =? 12288))%N.

(** [match_at p s] is the matcher anchored at the start of [s], as
    [pattern.match] is: the number of characters of the match, or [None].
    The star is greedy and backtracks: it first tries to take one more
    white-space character, and falls back on the rest of the pattern. *)
Fixpoint match_at (p : pattern) (s : text) {struct p} : option nat :=
  match p with
  | [] => Some 0
  | Chr c :: p' =>
      match s with
      | x :: s' => if (x =? c)%N then S <$> match_at p' s' else None
      | [] => None
      end
  | SpaceStar :: p' =>
      (fix star (s : text) : option nat :=
         match s with
         | x :: s' =>
             if is_space x then
               match star s' with
               | Some n => Some (S n)
               | None => match_at p' s
               end
             else match_at p' s
         | [] => match_at p' s
         end) s
  | NotAhead c :: p' =>
      match s with
      | x :: _ => if (x =? c)%N then None else match_at p' s
      | [] => match_at p' s
      end
  end.

(** *** Pattern sources *)

(** The characters that the script's patterns escape with a backslash. *)
Definition escapable (a : ascii) : bool :=
  existsb (Ascii.eqb a) (list_ascii_of_string "{}().").

(** The characters with a special meaning when they are not escaped. *)
Definition special (a : ascii) : bool :=
  existsb (Ascii.eqb a) (list_ascii_of_string "\.^$*+?{}[]|()").

(** [re.compile] on the fragment above; [None] outside of it. *)
Fixpoint compile_chars (src : list ascii) : option pattern :=
  match src with
  | [] => Some []
  | "\"%char :: "s"%char :: "*"%char :: rest =>
      cons SpaceStar <$> compile_chars rest
  | "\"%char :: a :: rest =>
      if escapable a then cons (Chr (chr a)) <$> compile_chars rest else None
  | "("%char :: "?"%char :: "!"%char :: "\"%char :: a :: ")"%char :: rest =>
      if escapable a then cons (NotAhead (chr a)) <$> compile_chars rest
      else None
  | a :: rest =>
      if special a then None else cons (Chr (chr a)) <$> compile_chars rest
  end.

Definition compile (src : string) : option pattern :=
  compile_chars (list_ascii_of_string src).

(** The pattern that matches exactly the ASCII string [s]. *)
Definition lit (s : string) : pattern := map Chr (str_of s).

(** *** Substitution *)

(** [re.sub(p, r, s)] for a replacement [r] without backslash: the text is
    scanned from the left; where the pattern matches, the replacement is
    emitted and the scan resumes after the match; elsewhere the character
    is copied.  [skip] counts the characters of the last match that are
    still to be passed over.  An empty match emits the replacement and
    copies the character. *)
Fixpoint sub_scan (p : pattern) (r : text) (skip : nat) (s : text) : text :=
  match s with
  | [] =>
      match skip, match_at p [] with
      | 0, Some _ => r
      | _, _ => []
      end
  | x :: s' =>
      match skip with
      | S k => sub_scan p r k s'
      | 0 =>
          match match_at p s with
          | None => x :: sub_scan p r 0 s'
          | Some 0 => r ++ x :: sub_scan p r 0 s'
          | Some (S k) => r ++ sub_scan p r k s'
          end
      end
  end.

Definition sub (p : pattern) (r : text) (s : text) : text := sub_scan p r 0 s.

(** [occursb p s]: the pattern matches somewhere in [s] ([pattern.search]
    finds a match). *)
Fixpoint occursb (p : pattern) (s : text) : bool :=
  match match_at p s with
  | Some _ => true
  | None => match s with [] => false | _ :: s' => occursb p s' end
  end.

(** *** Decidable conditions on patterns and replacements *)

(** [dead q u]: the matcher fails on every text that starts with [u],
    whatever follows: each branch it would explore ends on a mismatch
    before the end of [u]. *)
Fixpoint dead (q : pattern) (u : text) {struct q} : bool :=
  match q with
  | [] => false
  | Chr c :: q' =>
      match u with
      | x :: u' => if (x =? c)%N then dead q' u' else true
      | [] => false
      end
  | SpaceStar :: q' =>
      (fix star (u : text) : bool :=
         match u with
         | x :: u' => if is_space x then star u' && dead q' u else dead q' u
         | [] => false
         end) u
  | NotAhead c :: q' =>
      match u with
      | x :: _ => if (x =? c)%N then true else dead q' u
      | [] => false
      end
  end.

(** [skippable q c]: before the character [c], the pattern matches the
    empty text: only stars and lookaheads, and [c] stops them all. *)
Definition skippable (q : pattern) (c : char) : bool :=
  forallb (fun a => match a with
                    | Chr _ => false
                    | SpaceStar => negb (is_space c)
                    | NotAhead d => negb (c =? d)%N
                    end) q.

(** The pattern cannot match from any position inside [r]. *)
Fixpoint all_dead (q : pattern) (r : text) : bool :=
  match r with
  | [] => true
  | _ :: r' => dead q r && all_dead q r'
  end.

(** A match that is under way when the text reaches [r] (or a match of a
    pattern whose first character is [c]) cannot go on through [r]: every
    rest of the pattern is dead on [r], unless it would already have
    succeeded before [c]. *)
Fixpoint all_stopped (r : text) (c : char) (q : pattern) : bool :=
  (dead q r || skippable q c) &&
  match q with
  | [] => true
  | _ :: q' => all_stopped r c q'
  end.

(** [inert q p r]: replacing a match of [p] by [r] never completes a match
    of [q].  Both patterns start with a literal character. *)
Definition inert (q p : pattern) (r : text) : bool :=
  match q, p with
  | Chr _ :: q', Chr c :: _ => all_dead q r && all_stopped r c q'
  | _, _ => false
  end.

(** [apart_at c q]: before the character [c], the pattern either has
    already matched the empty text or is dead: what follows [c] cannot
    change its result. *)
Definition apart_at (c : char) (q : pattern) : bool :=
  match match_at q [] with
  | None => dead q [c]
  | Some 0 => skippable q c
  | Some (S _) => false
  end.

Fixpoint all_apart (c : char) (q : pattern) : bool :=
  apart_at c q &&
  match q with
  | [] => true
  | _ :: q' => all_apart c q'
  end.

(** The suffixes of a list, the list itself first. *)
Fixpoint tails {A} (l : list A) : list (list A) :=
  l :: match l with [] => [] | _ :: l' => tails l' end.

(** [cut_at v q]: on the text [v], the pattern and each of its rests do
    what they do at the end of the text. *)
Definition cut_at (v : text) (q : pattern) : Prop :=
  Forall (fun q2 => match_at q2 v = match_at q2 []) (tails q).

(** [unstraddled p c]: no match of [p] that starts earlier goes over an
    occurrence of the character [c]. *)
Definition unstraddled (p : pattern) (c : char) : bool :=
  match p with
  | Chr _ :: q => all_apart c q
  | _ => false
  end.

(** *** Texts with free white space *)

(** A text in which some places stand for any run of white space. *)
Inductive sym : Type :=
| C (c : char)   (* this character *)
| W.             (* any white space, or none *)

(** The shape that a sample text stands for: each space of the sample is a
    place for any run of white space. *)
Definition shape (sample : string) : list sym :=
  map (fun a => if Ascii.eqb a " " then W else C (chr a))
      (list_ascii_of_string sample).

(** The pattern of a shape: [\s*] at the free places. *)
Definition pattern_of (u : list sym) : pattern :=
  map (fun x => match x with C c => Chr c | W => SpaceStar end) u.

(** A run of white space. *)
Definition blank (w : text) : Prop := Forall (fun x => is_space x = true) w.

(** [fill u ws]: the text of shape [u] whose free places hold the runs
    [ws], in order (nothing where [ws] is too short). *)
Fixpoint fill (u : list sym) (ws : list text) : text :=
  match u with
  | [] => []
  | C c :: u' => c :: fill u' ws
  | W :: u' => hd [] ws ++ fill u' (tl ws)
  end.

(** Each free place is followed by a character that is not white space. *)
Fixpoint well_spaced (u : list sym) : bool :=
  match u with
  | [] => true
  | C _ :: u' => well_spaced u'
  | W :: u' =>
      match u' with
      | C c :: _ => negb (is_space c) && well_spaced u'
      | _ => false
      end
  end.

(** [sdead q u]: the matcher fails on every text that starts with a text
    of shape [u]. *)
Fixpoint sdead (q : pattern) (u : list sym) {struct q} : bool :=
  match q with
  | [] => false
  | Chr c :: q' =>
      (fix go (u : list sym) : bool :=
         match u with
         | [] => false
         | C x :: u' => if (x =? c)%N then sdead q' u' else true
         | W :: u' => negb (is_space c) && go u'
         end) u
  | SpaceStar :: q' =>
      (fix go (u : list sym) : bool :=
         match u with
         | [] => false
         | C x :: u' => if is_space x then go u' && sdead q' u else sdead q' u
         | W :: u' => go u' && sdead q' u
         end) u
  | NotAhead _ :: _ => false
  end.

(** Every non-empty rest of the pattern is dead on the shape, and matches
    nothing at the end of a text. *)
Fixpoint all_sdead (u : list sym) (q : pattern) : bool :=
  match q with
  | [] => true
  | _ :: q' =>
      sdead q u &&
      match match_at q [] with None => true | Some _ => false end &&
      all_sdead u q'
  end.

(** *** Replacing all non-overlapping occurrences *)

(** [replace_all p r s s']: [s'] is [s] with every non-overlapping match of
    [p], found from the left, replaced by [r], and everything else kept. *)
Inductive replace_all (p : pattern) (r : text) : text -> text -> Prop :=
| ra_end : replace_all p r [] []
| ra_keep x s s' :
    match_at p (x :: s) = None ->
    replace_all p r s s' ->
    replace_all p r (x :: s) (x :: s')
| ra_hit s n s' :
    match_at p s = Some (S n) ->
    replace_all p r (drop (S n) s) s' ->
    replace_all p r s (r ++ s').

End Re.

(** ** The world of the script: files, console, exceptions *)

(** What the script finds at a path.  The data of a file is the [str] that
    [f.read()] returns in text mode and that [f.write] accepts: in text
    mode, reading back what was written gives the same [str]. *)
Inductive node : Type :=
| File (data : text) (readonly : option text)
    (* a readable file; [readonly = Some d]: opening it for writing raises
       an exception whose message is [d] *)
| Broken (detail : text).
    (* something that cannot be opened or decoded: [open] or [read] raises
       an exception, other than [FileNotFoundError], with message [detail] *)

(** The calls on the file system, in the order they are made. *)
Inductive syscall : Type :=
| OpenRead (path : string)
| OpenWrite (path : string).

Definition syscall_path (c : syscall) : string :=
  match c with OpenRead p => p | OpenWrite p => p end.

Definition is_write (c : syscall) : bool :=
  match c with OpenWrite _ => true | OpenRead _ => false end.

Record world : Type := World {
  disk : gmap string node;   (* absent key: no such file *)
  stdout : text;             (* everything printed so far *)
  calls : list syscall       (* the file-system calls made so far *)
}.

(** The exceptions of the model; [str(e)] is [detail]. *)
Inductive exn : Type :=
| FileNotFoundError
| OtherException (detail : text).

Inductive result (A : Type) : Type :=
| Ok (a : A)
| Raise (e : exn).
Arguments Ok {A} a.
Arguments Raise {A} e.

(** Computations that read and change the world and may raise. *)
Definition M (A : Type) : Type := world -> result A * world.

Definition ret {A} (a : A) : M A := fun w => (Ok a, w).

Definition bind {A B} (m : M A) (k : A -> M B) : M B :=
  fun w =>
    match m w with
    | (Ok a, w') => k a w'
    | (Raise e, w') => (Raise e, w')
    end.

Notation "'let!' x ':=' m 'in' k" := (bind m (fun x => k))
  (at level 10, x name, m at level 100, k at level 200).
Notation "m ;; k" := (bind m (fun _ => k))
  (at level 100, k at level 200, right associativity).

(** [try: body except FileNotFoundError: h1 except Exception as e: h2 e] *)
Definition try_except {A} (body : M A) (h1 : M A) (h2 : text -> M A) : M A :=
  fun w =>
    match body w with
    | (Ok a, w') => (Ok a, w')
    | (Raise FileNotFoundError, w') => h1 w'
    | (Raise (OtherException d), w') => h2 d w'
    end.

Definition log_call (c : syscall) (w : world) : world :=
  World (disk w) (stdout w) (calls w ++ [c]).

(** [with open(path, 'r') as f: f.read()] *)
Definition read_file (path : string) : M text :=
  fun w =>
    let w' := log_call (OpenRead path) w in
    match disk w !! path with
    | None => (Raise FileNotFoundError, w')
    | Some (File data _) => (Ok data, w')
    | Some (Broken d) => (Raise (OtherException d), w')
    end.

(** [with open(path, 'w') as f: f.write(content)] *)
Definition write_file (path : string) (content : text) : M unit :=
  fun w =>
    let w' := log_call (OpenWrite path) w in
    match disk w !! path with
    | Some (File _ (Some d)) => (Raise (OtherException d), w')
    | Some (Broken d) => (Raise (OtherException d), w')
    | Some (File _ None) | None =>
        (Ok tt, World (<[path := File content None]> (disk w))
                      (stdout w') (calls w'))
    end.

(** [print(line)] *)
Definition print (line : text) : M unit :=
  fun w => (Ok tt, World (disk w) (stdout w ++ line ++ [LF]) (calls w)).

(** [for x in l: body(x)] *)
Fixpoint for_each (l : list string) (body : string -> M unit) : M unit :=
  match l with
  | [] => ret tt
  | x :: l' => body x ;; for_each l' body
  end.

(** ** The script *)

Module Script.
Import Re.

Definition files_to_fix : list string := [
  "src/app/api/series/[id]/route.ts";
  "src/app/api/warehouses/[id]/route.ts";
  "src/app/api/warehouses/[id]/deactivate/route.ts";
  "src/app/api/warehouses/[id]/activate/route.ts";
  "src/app/api/admin/users/[id]/route.ts";
  "src/app/api/admin/users/[id]/roles/route.ts";
  "src/app/api/admin/users/[id]/roles/[roleId]/route.ts";
  "src/app/api/titles/[id]/stock-threshold/route.ts";
  "src/app/api/audit/users/[id]/route.ts";
  "src/app/api/inventory/[id]/route.ts";
  "src/app/api/inventory/[id]/adjust/route.ts"
].

(** The five patterns, as written in the script. *)
Definition srcA : string :=
  "\{\s*params\s*\}:\s*\{\s*params:\s*\{\s*id:\s*string\s*\}\s*\}".
Definition srcB : string :=
  "\{\s*params\s*\}:\s*\{\s*params:\s*\{\s*id:\s*string,\s*roleId:\s*string\s*\}\s*\}".
Definition srcC : string := "const id = parseInt\(params\.id\)".
Definition srcD : string := "const id = params\.id(?!\))".
Definition srcE : string := "const roleId = params\.roleId".

(** The compiled patterns. *)
Definition patA : pattern :=
  lit "{" ++ SpaceStar :: lit "params" ++ SpaceStar :: lit "}:" ++
  SpaceStar :: lit "{" ++ SpaceStar :: lit "params:" ++
  SpaceStar :: lit "{" ++ SpaceStar :: lit "id:" ++
  SpaceStar :: lit "string" ++ SpaceStar :: lit "}" ++ SpaceStar :: lit "}".

Definition patB : pattern :=
  lit "{" ++ SpaceStar :: lit "params" ++ SpaceStar :: lit "}:" ++
  SpaceStar :: lit "{" ++ SpaceStar :: lit "params:" ++
  SpaceStar :: lit "{" ++ SpaceStar :: lit "id:" ++
  SpaceStar :: lit "string," ++ SpaceStar :: lit "roleId:" ++
  SpaceStar :: lit "string" ++ SpaceStar :: lit "}" ++ SpaceStar :: lit "}".

Definition wordC : text := str_of "const id = parseInt(params.id)".
Definition wordD : text := str_of "const id = params.id".
Definition wordE : text := str_of "const roleId = params.roleId".

Definition patC : pattern := map Chr wordC.
Definition patD : pattern := map Chr wordD ++ [NotAhead (chr ")")].
Definition patE : pattern := map Chr wordE.

(** The five replacements. *)
Definition replA : text :=
  str_of "{ params }: { params: Promise<{ id: string }> }".
Definition replB : text :=
  str_of "{ params }: { params: Promise<{ id: string, roleId: string }> }".
Definition replC : text :=
  str_of "const { id: paramId } = await params" ++
  LF :: str_of "    const id = parseInt(paramId)".
Definition replD : text := str_of "const { id } = await params".
Definition replE : text := str_of "const { roleId } = await params".

(** The single-id signature, each space standing for any white space. *)
Definition shapeA : list sym :=
  shape "{ params }: { params: { id: string } }".

Definition ruleA : text -> text := sub patA replA.
Definition ruleB : text -> text := sub patB replB.
Definition ruleC : text -> text := sub patC replC.
Definition ruleD : text -> text := sub patD replD.
Definition ruleE : text -> text := sub patE replE.

(** The rewriting of one file's text: the five [re.sub] calls. *)
Definition transform (content : text) : text :=
  (* Fix single id param *)
  let content := sub patA replA content in
  (* Fix id + roleId params *)
  let content := sub patB replB content in
  (* Fix params.id access - parseInt version *)
  let content := sub patC replC content in
  (* Fix params.id access - direct version *)
  let content := sub patD replD content in
  (* Fix params.roleId access *)
  let content := sub patE replE content in
  content.

(** The status lines. *)
Definition CHECK_MARK : text := [9989%N].            (* U+2705 *)
Definition NEXT_TRACK : text := [9197%N; 65039%N].   (* U+23ED U+FE0F *)
Definition CROSS_MARK : text := [10060%N].           (* U+274C *)

Definition line_fixed (filepath : string) : text :=
  CHECK_MARK ++ str_of " Fixed: " ++ str_of filepath.
Definition line_no_changes (filepath : string) : text :=
  NEXT_TRACK ++ str_of "  No changes: " ++ str_of filepath.
Definition line_not_found (filepath : string) : text :=
  CROSS_MARK ++ str_of " Not found: " ++ str_of filepath.
Definition line_error (filepath : string) (e : text) : text :=
  CROSS_MARK ++ str_of " Error processing " ++ str_of filepath ++
  str_of ": " ++ e.

(** The [try] block of the loop body. *)
Definition rewrite_file (filepath : string) : M unit :=
  let! content := read_file filepath in
  let original_content := content in
  let content := transform content in
  if decide (content <> original_content) then
    write_file filepath content ;;
    print (line_fixed filepath)
  else
    print (line_no_changes filepath).

(** The loop body: the [try] block and its two handlers. *)
Definition process (filepath : string) : M unit :=
  try_except (rewrite_file filepath)
    (print (line_not_found filepath))
    (fun e => print (line_error filepath e)).

(** The whole script. *)
Definition main : M unit :=
  for_each files_to_fix process ;;
  print (LF :: str_of "Done!").

(** *** What one pass of the loop amounts to *)

(** What happens to one path, as the status line tells it. *)
Inductive outcome : Type :=
| Fixed (content : text)
| NoChanges
| NotFound
| Failed (detail : text).

Definition outcome_of (d : gmap string node) (filepath : string) : outcome :=
  match d !! filepath with
  | None => NotFound
  | Some (Broken e) => Failed e
  | Some (File data readonly) =>
      if decide (transform data <> data) then
        match readonly with
        | None => Fixed (transform data)
        | Some e => Failed e
        end
      else NoChanges
  end.

Definition status_line (filepath : string) (o : outcome) : text :=
  match o with
  | Fixed _ => line_fixed filepath
  | NoChanges => line_no_changes filepath
  | NotFound => line_not_found filepath
  | Failed e => line_error filepath e
  end.

Definition calls_of (d : gmap string node) (filepath : string)
  : list syscall :=
  OpenRead filepath ::
  match d !! filepath with
  | Some (File data _) =>
      if decide (transform data <> data) then [OpenWrite filepath] else []
  | _ => []
  end.

Definition disk_after (d : gmap string node) (filepath : string)
  : gmap string node :=
  match outcome_of d filepath with
  | Fixed content => <[filepath := File content None]> d
  | _ => d
  end.

(** The world after the loop body has run on [filepath]. *)
Definition step (w : world) (filepath : string) : world :=
  World (disk_after (disk w) filepath)
        (stdout w ++ status_line filepath (outcome_of (disk w) filepath) ++ [LF])
        (calls w ++ calls_of (disk w) filepath).

(** The world after the closing [print]. *)
Definition finish (w : world) : world :=
  World (disk w) (stdout w ++ (LF :: str_of "Done!") ++ [LF]) (calls w).


(** The calls that open a file for reading. *)
Definition is_read (c : syscall) : bool := negb (is_write c).

End Script.

(** ** Sample worlds *)

Module Samples.
Import Script.

Definition route : string := "src/app/api/series/[id]/route.ts".

(** A writable route file with a direct id read. *)
Definition w_direct : world :=
  World (<[route := File (str_of "const id = params.id;") None]> ∅) [] [].

(** The same file, read-only. *)
Definition denied : text := str_of "[Errno 13] Permission denied".
Definition w_readonly : world :=
  World (<[route := File (str_of "const id = params.id;") (Some denied)]> ∅)
        [] [].

(** A file that is already in its rewritten form. *)
Definition w_done : world :=
  World (<[route := File (str_of "const { id } = await params;") None]> ∅)
        [] [].

(** A file that reads a longer property, [params.idx]. *)
Definition w_idx : world :=
  World (<[route := File (str_of "const id = params.idx") None]> ∅) [] [].

(** No file at all. *)
Definition w_empty : world := World ∅ [] [].

End Samples.

(** ** Texts that a rule passes over *)

Module Pass.
Import Re Script.

(** [apart_on u q]: on a text that starts with [u], the pattern does what
    it does at the end of a text: it is dead on [u], or it has matched the
    empty text before the first character of [u]. *)
Definition apart_on (u : text) (q : pattern) : bool :=
  match match_at q [] with
  | None => dead q u
  | Some 0 => match u with c :: _ => skippable q c | [] => false end
  | Some (S _) => false
  end.

Fixpoint all_apart_on (u : text) (q : pattern) : bool :=
  apart_on u q &&
  match q with
  | [] => true
  | _ :: q' => all_apart_on u q'
  end.

(** [passes p u]: a scan for [p] copies the text [u] wherever it stands:
    no match that starts earlier reaches into [u], and none starts
    inside [u]. *)
Definition passes (p : pattern) (u : text) : bool :=
  match p with
  | Chr _ :: q => all_apart_on u q && all_dead p u
  | _ => false
  end.

(** The pattern cannot match from any position inside a text of shape [u]. *)
Fixpoint never_starts (q : pattern) (u : list sym) : bool :=
  match u with
  | [] => true
  | _ :: u' => sdead q u && never_starts q u'
  end.


(** The first character of the text is not [x] (and there is one). *)
Definition starts_other (x : char) (r : text) : bool :=
  match r with
  | c :: _ => negb (c =? x)%N
  | [] => false
  end.

(** The id + roleId signature, each space standing for any white space. *)
Definition shapeB : list sym :=
  shape "{ params }: { params: { id: string, roleId: string } }".

(** The single-id signature in two parts: up to the first closing brace,
    and from the colon on. *)
Definition shapeA1 : list sym := shape "{ params }".
Definition shapeA2 : list sym := shape ": { params: { id: string } }".

End Pass.

(** * Properties *)

(** ** The matcher *)

Section Matcher.
Import Re.

Lemma match_at_star_cons (p : pattern) (x : char) (s : text) :
  match_at (SpaceStar :: p) (x :: s) =
  if is_space x then
    match match_at (SpaceStar :: p) s with
    | Some n => Some (S n)
    | None => match_at p (x :: s)
    end
  else match_at p (x :: s).
Proof. reflexivity. Qed.

Lemma match_at_star_nil (p : pattern) :
  match_at (SpaceStar :: p) [] = match_at p [].
Proof. reflexivity. Qed.

Lemma match_at_chr_cons (c : char) (p : pattern) (x : char) (s : text) :
  match_at (Chr c :: p) (x :: s) =
  if (x =? c)%N then S <$> match_at p s else None.
Proof. reflexivity. Qed.

Lemma dead_star_cons (q : pattern) (x : char) (u : text) :
  dead (SpaceStar :: q) (x :: u) =
  if is_space x then dead (SpaceStar :: q) u && dead q (x :: u)
  else dead q (x :: u).
Proof. reflexivity. Qed.

(** A match never runs past the end of the text. *)
Lemma match_at_le (p : pattern) :
  forall (s : text) (n : nat), match_at p s = Some n -> n <= length s.
Proof.
  induction p as [|a p IH]; intros s n H.
  - simpl in H. injection H as <-. lia.
  - destruct a as [c| |c].
    + destruct s as [|x s]; [discriminate|].
      rewrite match_at_chr_cons in H.
      destruct (x =? c)%N; [|discriminate].
      destruct (match_at p s) as [m|] eqn:E; [|discriminate].
      injection H as <-. apply IH in E. simpl. lia.
    + revert n H. induction s as [|x s IHs]; intros n H.
      * rewrite match_at_star_nil in H. by apply IH in H.
      * rewrite match_at_star_cons in H.
        destruct (is_space x).
        -- destruct (match_at (SpaceStar :: p) s) as [m|] eqn:E.
           ++ injection H as <-. specialize (IHs m eq_refl). simpl. lia.
           ++ by apply IH in H.
        -- by apply IH in H.
    + destruct s as [|x s]; simpl in H.
      * by apply IH in H.
      * destruct (x =? c)%N; [discriminate|]. by apply IH in H.
Qed.

(** [dead] is sound: nothing that follows can rescue the match. *)
Lemma dead_sound (q : pattern) :
  forall (u : text), dead q u = true ->
  forall (v : text), match_at q (u ++ v) = None.
Proof.
  induction q as [|a q IH]; intros u H v; [discriminate|].
  destruct a as [c| |c].
  - destruct u as [|x u]; [discriminate|].
    simpl in H. rewrite <- app_comm_cons, match_at_chr_cons.
    destruct (x =? c)%N; [|done]. by rewrite (IH u H v).
  - induction u as [|x u IHu]; [discriminate|].
    rewrite dead_star_cons in H.
    rewrite <- app_comm_cons, match_at_star_cons.
    destruct (is_space x).
    + apply andb_true_iff in H as [H1 H2].
      rewrite (IHu H1). apply (IH _ H2 v).
    + apply (IH _ H v).
  - destruct u as [|x u]; [discriminate|].
    simpl in H |- *. destruct (x =? c)%N; [done|]. apply (IH _ H v).
Qed.

(** [skippable] is sound. *)
Lemma skippable_sound (q : pattern) (c : char) (s : text) :
  skippable q c = true -> match_at q (c :: s) = Some 0.
Proof.
  induction q as [|a q IH]; [done|].
  intros H. unfold skippable in H. simpl in H.
  apply andb_true_iff in H as [Ha Hq].
  destruct a as [d| |d]; [discriminate| |].
  - rewrite match_at_star_cons.
    apply negb_true_iff in Ha. rewrite Ha. by apply IH.
  - simpl. apply negb_true_iff in Ha. rewrite Ha. by apply IH.
Qed.

End Matcher.

(** ** Substitution *)

Section Substitution.
Import Re.

Lemma sub_scan_drop (p : pattern) (r : text) :
  forall (s : text) (k : nat),
    k <= length s -> sub_scan p r k s = sub p r (drop k s).
Proof.
  induction s as [|x s IH]; intros k Hk.
  - destruct k; [done | simpl in Hk; lia].
  - destruct k as [|k]; [done|].
    cbn [sub_scan drop]. apply IH. simpl in Hk. lia.
Qed.

Lemma sub_nil (c : char) (p : pattern) (r : text) :
  sub (Chr c :: p) r [] = [].
Proof. reflexivity. Qed.

Lemma sub_keep (p : pattern) (r : text) (x : char) (s : text) :
  match_at p (x :: s) = None -> sub p r (x :: s) = x :: sub p r s.
Proof. intros H. unfold sub. cbn [sub_scan]. by rewrite H. Qed.

Lemma sub_hit (p : pattern) (r : text) (s : text) (n : nat) :
  match_at p s = Some (S n) -> sub p r s = r ++ sub p r (drop (S n) s).
Proof.
  intros H. pose proof (match_at_le _ _ _ H) as Hle.
  destruct s as [|x s]; [simpl in Hle; lia|].
  unfold sub at 1. cbn [sub_scan]. rewrite H. f_equal.
  cbn [drop]. apply sub_scan_drop. simpl in Hle. lia.
Qed.

(** A pattern that starts with a literal character only has non-empty
    matches, and they start with that character. *)
Lemma match_chr_inv (c : char) (p : pattern) (s : text) (n : nat) :
  match_at (Chr c :: p) s = Some n ->
  exists m s', n = S m /\ s = c :: s'.
Proof.
  destruct s as [|x s]; [discriminate|].
  rewrite match_at_chr_cons.
  destruct (N.eqb_spec x c) as [->|]; [|discriminate].
  destruct (match_at p s) as [m|]; [|discriminate].
  intros [= <-]. eauto.
Qed.

(** The scan is the relation "all non-overlapping matches replaced". *)
Lemma replace_all_sub (c : char) (p : pattern) (r : text) (s : text) :
  replace_all (Chr c :: p) r s (sub (Chr c :: p) r s).
Proof.
  remember (length s) as k eqn:Hk.
  revert s Hk. induction (lt_wf k) as [k _ IH]. intros s ->.
  destruct s as [|x s]; [constructor|].
  destruct (match_at (Chr c :: p) (x :: s)) as [n|] eqn:E.
  - destruct (match_chr_inv _ _ _ _ E) as (m & s' & -> & _).
    rewrite (sub_hit _ _ _ _ E).
    apply ra_hit with m; [done|].
    eapply IH; [|reflexivity].
    rewrite length_drop. simpl. lia.
  - rewrite (sub_keep _ _ _ _ E). constructor; [done|].
    eapply IH; [|reflexivity]. simpl. lia.
Qed.

(** The relation determines its result. *)
Lemma replace_all_fun (p : pattern) (r : text) (s s1 s2 : text) :
  replace_all p r s s1 -> replace_all p r s s2 -> s1 = s2.
Proof.
  intros H1. revert s2.
  induction H1 as [|x s s' E _ IH|s n s' E _ IH]; intros s2 H2.
  - inversion H2 as [| |s0 n s0' E0]; subst; [done|].
    apply match_at_le in E0. simpl in E0. lia.
  - inversion H2 as [|x0 s0 s0' E0 H0|s0 n s0' E0 H0]; subst.
    + f_equal. by apply IH.
    + congruence.
  - inversion H2 as [|x0 s0 s0' E0 H0|s0 m s0' E0 H0]; subst.
    + apply match_at_le in E. simpl in E. lia.
    + congruence.
    + f_equal. apply IH. congruence.
Qed.

(** Where the pattern does not occur, nothing is rewritten. *)
Lemma sub_no_occurrence (p : pattern) (r : text) (s : text) :
  occursb p s = false -> sub p r s = s.
Proof.
  induction s as [|x s IH]; intros H.
  - unfold sub. simpl in *. by destruct (match_at p []).
  - cbn [occursb] in H.
    destruct (match_at p (x :: s)) eqn:E; [discriminate|].
    rewrite (sub_keep _ _ _ _ E). f_equal. by apply IH.
Qed.

Lemma occursb_false_tails (q : pattern) (s : text) :
  occursb q s = false <-> Forall (fun s2 => match_at q s2 = None) (tails s).
Proof.
  induction s as [|x s IH]; cbn [occursb tails].
  - split.
    + destruct (match_at q []) eqn:E; [discriminate|].
      intros _. by constructor.
    + intros H. inversion H as [|? ? E]; subst. by rewrite E.
  - split.
    + destruct (match_at q (x :: s)) eqn:E; [discriminate|].
      intros H. constructor; [done|]. by apply IH.
    + intros H. inversion H as [|? ? E Hs]; subst. rewrite E. by apply IH.
Qed.

Lemma Forall_tails_drop {A} (P : list A -> Prop) (n : nat) :
  forall (s : list A), Forall P (tails s) -> Forall P (tails (drop n s)).
Proof.
  induction n as [|n IH]; intros s H; [by rewrite drop_0|].
  destruct s as [|x s]; [done|].
  cbn [drop]. apply IH. by inversion H.
Qed.

(** *** Replacements that complete no match *)

Section Inert.
Variables (p : pattern) (r : text) (cp : char) (p' : pattern).
Hypothesis Hp : p = Chr cp :: p'.

(** A match under way in a stretch of text that the scan copies stays
    unfinished in the output. *)
Lemma stopped_preserved :
  forall (s : text) (q : pattern),
    all_stopped r cp q = true ->
    match_at q s = None -> match_at q (sub p r s) = None.
Proof.
  induction s as [|x s IHs]; intros q Hq Hm.
  - by rewrite Hp, sub_nil.
  - destruct (match_at p (x :: s)) as [n|] eqn:E.
    + (* a match of [p] starts here: the output goes on with [r] *)
      rewrite Hp in E.
      destruct (match_chr_inv _ _ _ _ E) as (m & s' & -> & [= -> ->]).
      rewrite <- Hp in E. rewrite (sub_hit _ _ _ _ E).
      destruct q as [|a q]; [discriminate|].
      cbn [all_stopped] in Hq. apply andb_true_iff in Hq as [Hq _].
      apply orb_true_iff in Hq as [Hd|Hk].
      * by apply dead_sound.
      * rewrite (skippable_sound _ _ _ Hk) in Hm. discriminate.
    + (* the character is copied *)
      rewrite (sub_keep _ _ _ _ E).
      induction q as [|a q IHq]; [discriminate|].
      cbn [all_stopped] in Hq. apply andb_true_iff in Hq as [Hq Hq'].
      destruct a as [c| |c].
      * rewrite match_at_chr_cons in Hm |- *.
        destruct (x =? c)%N; [|done].
        destruct (match_at q s) eqn:Es; [discriminate|].
        by rewrite (IHs q Hq' Es).
      * rewrite match_at_star_cons in Hm |- *.
        assert (Hall : all_stopped r cp (SpaceStar :: q) = true).
        { cbn [all_stopped]. by rewrite Hq, Hq'. }
        destruct (is_space x).
        -- destruct (match_at (SpaceStar :: q) s) eqn:Es; [discriminate|].
           rewrite (IHs _ Hall Es). by apply IHq.
        -- by apply IHq.
      * simpl in Hm |- *. destruct (x =? c)%N; [done|]. by apply IHq.
Qed.

Lemma occursb_app_dead (q : pattern) (v : text) :
  forall (u : text), all_dead q u = true -> occursb q (u ++ v) = occursb q v.
Proof.
  induction u as [|x u IH]; [done|].
  cbn [all_dead]. intros H. apply andb_true_iff in H as [Hd Hu].
  rewrite <- app_comm_cons. cbn [occursb].
  rewrite app_comm_cons, (dead_sound _ _ Hd v). by apply IH.
Qed.

(** The output of the scan holds no match of an inert pattern, provided
    the input held none where the scan copied a character. *)
Lemma sub_no_new_match (q : pattern) :
  inert q p r = true ->
  forall (s : text),
    Forall (fun s2 => match_at p s2 = None -> match_at q s2 = None) (tails s) ->
    occursb q (sub p r s) = false.
Proof.
  intros Hi. unfold inert in Hi. rewrite Hp in Hi.
  destruct q as [|[cq| |] q']; try discriminate.
  apply andb_true_iff in Hi as [Hd Hs].
  intros s. remember (length s) as k eqn:Hk.
  revert s Hk. induction (lt_wf k) as [k _ IH]. intros s -> Hgap.
  destruct s as [|x s]; [by rewrite Hp, sub_nil|].
  destruct (match_at p (x :: s)) as [n|] eqn:E.
  - rewrite Hp in E.
    destruct (match_chr_inv _ _ _ _ E) as (m & s' & -> & _).
    rewrite <- Hp in E. rewrite (sub_hit _ _ _ _ E).
    rewrite (occursb_app_dead _ _ _ Hd).
    eapply IH; [|reflexivity|by apply Forall_tails_drop].
    rewrite length_drop. simpl. lia.
  - rewrite (sub_keep _ _ _ _ E). cbn [occursb].
    cbn [tails] in Hgap. apply Forall_cons in Hgap as [Hx Hrest].
    specialize (Hx E). rewrite match_at_chr_cons in Hx |- *.
    assert (Hnone : (if (x =? cq)%N
                     then S <$> match_at q' (sub p r s) else None) = None).
    { destruct (x =? cq)%N; [|done].
      destruct (match_at q' s) eqn:Es; [discriminate|].
      by rewrite (stopped_preserved _ _ Hs Es). }
    rewrite Hnone.
    eapply IH; [|reflexivity|done]. simpl. lia.
Qed.

End Inert.

(** A rule leaves no match of its own pattern. *)
Lemma sub_no_own_match (p : pattern) (r : text) (s : text) :
  inert p p r = true -> occursb p (sub p r s) = false.
Proof.
  intros Hi.
  assert (Hp : exists cp p', p = Chr cp :: p').
  { destruct p as [|[cp| |] p']; try discriminate. eauto. }
  destruct Hp as (cp & p' & Hp).
  apply (sub_no_new_match p r cp p' Hp p Hi).
  apply Forall_forall. auto.
Qed.

(** A rule brings no match of another, inert, pattern. *)
Lemma sub_no_other_match (q p : pattern) (r : text) (s : text) :
  inert q p r = true -> occursb q s = false -> occursb q (sub p r s) = false.
Proof.
  intros Hi Hq.
  assert (Hp : exists cp p', p = Chr cp :: p').
  { unfold inert in Hi. destruct q as [|[| |] ?]; try discriminate.
    destruct p as [|[cp| |] p']; try discriminate. eauto. }
  destruct Hp as (cp & p' & Hp).
  apply (sub_no_new_match p r cp p' Hp q Hi).
  apply occursb_false_tails in Hq.
  eapply Forall_impl; [exact Hq|]. auto.
Qed.

End Substitution.

(** ** Splitting the scan *)

Section Split.
Import Re.

Lemma cut_at_tail (v : text) (a : atom) (q : pattern) :
  cut_at v (a :: q) -> cut_at v q.
Proof. unfold cut_at. cbn [tails]. by intros [_ H]%Forall_cons. Qed.

Lemma cut_at_head (v : text) (q : pattern) :
  cut_at v q -> match_at q v = match_at q [].
Proof.
  unfold cut_at. destruct q; cbn [tails]; by intros [H _]%Forall_cons.
Qed.

(** A match that starts before a cut ends before it. *)
Lemma match_at_cut (v : text) :
  forall (u : text) (q : pattern),
    cut_at v q -> match_at q (u ++ v) = match_at q u.
Proof.
  induction u as [|x u IHu]; intros q Hq.
  - by apply cut_at_head.
  - rewrite <- app_comm_cons.
    induction q as [|a q IHq]; [done|].
    pose proof (cut_at_tail _ _ _ Hq) as Hq'.
    destruct a as [c| |c].
    + rewrite !match_at_chr_cons. by rewrite (IHu q Hq').
    + rewrite !match_at_star_cons.
      rewrite (IHu _ Hq), (IHq Hq'). done.
    + simpl. by rewrite (IHq Hq').
Qed.

(** The scan of a text with a cut is the scan of its two parts. *)
Lemma sub_cut (c : char) (q : pattern) (r : text) (v : text) :
  cut_at v q ->
  forall (u : text),
    sub (Chr c :: q) r (u ++ v) =
    sub (Chr c :: q) r u ++ sub (Chr c :: q) r v.
Proof.
  intros Hq u. remember (length u) as k eqn:Hk.
  revert u Hk. induction (lt_wf k) as [k _ IH]. intros u ->.
  destruct u as [|x u]; [done|].
  assert (Hm : match_at (Chr c :: q) ((x :: u) ++ v) =
               match_at (Chr c :: q) (x :: u)).
  { rewrite <- app_comm_cons, !match_at_chr_cons.
    by rewrite (match_at_cut v u q Hq). }
  destruct (match_at (Chr c :: q) (x :: u)) as [n|] eqn:E.
  - destruct (match_chr_inv _ _ _ _ E) as (m & s' & -> & _).
    rewrite (sub_hit _ _ _ _ Hm), (sub_hit _ _ _ _ E).
    pose proof (match_at_le _ _ _ E) as Hle.
    rewrite drop_app_le by done.
    rewrite <- app_assoc. f_equal.
    eapply IH; [|reflexivity].
    rewrite length_drop. simpl. lia.
  - rewrite <- app_comm_cons in Hm |- *.
    rewrite (sub_keep _ _ _ _ Hm), (sub_keep _ _ _ _ E).
    rewrite <- app_comm_cons. f_equal.
    eapply IH; [|reflexivity]. simpl. lia.
Qed.

Lemma apart_at_sound (c : char) (q : pattern) (v : text) :
  apart_at c q = true -> match_at q (c :: v) = match_at q [].
Proof.
  unfold apart_at. destruct (match_at q []) as [[|n]|]; [| done |].
  - intros H. by apply skippable_sound.
  - intros H. apply (dead_sound q [c] H v).
Qed.

Lemma all_apart_cut (c : char) (v : text) :
  forall (q : pattern), all_apart c q = true -> cut_at (c :: v) q.
Proof.
  unfold cut_at.
  induction q as [|a q IH]; cbn [all_apart tails]; intros H.
  - apply andb_true_iff in H as [H _].
    constructor; [by apply apart_at_sound | constructor].
  - apply andb_true_iff in H as [H H'].
    constructor; [by apply apart_at_sound | by apply IH].
Qed.

(** No match straddles a character that every rest of the pattern is
    apart from. *)
Lemma sub_apart (c0 : char) (q : pattern) (r : text) (c : char) :
  all_apart c q = true ->
  forall (u v : text),
    sub (Chr c0 :: q) r (u ++ c :: v) =
    sub (Chr c0 :: q) r u ++ sub (Chr c0 :: q) r (c :: v).
Proof. intros H u v. apply sub_cut. by apply all_apart_cut. Qed.

Lemma sub_unstraddled (p : pattern) (r : text) (c : char) :
  unstraddled p c = true ->
  forall (u v : text), sub p r (u ++ c :: v) = sub p r u ++ sub p r (c :: v).
Proof.
  destruct p as [|[c0| |] q]; try discriminate.
  apply sub_apart.
Qed.

(** *** Literal words *)

Lemma match_word (w : text) (q : pattern) (s : text) :
  match_at (map Chr w ++ q) (w ++ s) = (fun n => length w + n) <$> match_at q s.
Proof.
  induction w as [|x w IH]; cbn [map app length].
  - by destruct (match_at q s).
  - rewrite match_at_chr_cons, N.eqb_refl, IH.
    by destruct (match_at q s).
Qed.

Lemma match_word_inv (w : text) (q : pattern) :
  forall (s : text) (n : nat),
    match_at (map Chr w ++ q) s = Some n ->
    exists rest m, s = w ++ rest /\ match_at q rest = Some m.
Proof.
  induction w as [|x w IH]; cbn [map app]; intros s n H; [by eauto|].
  destruct s as [|y s]; [discriminate|].
  rewrite match_at_chr_cons in H.
  destruct (N.eqb_spec y x) as [->|]; [|discriminate].
  destruct (match_at (map Chr w ++ q) s) as [k|] eqn:E; [|discriminate].
  destruct (IH _ _ E) as (rest & m & -> & Hm). eauto.
Qed.

(** A match somewhere in the text is a match at the start of a suffix. *)
Lemma occursb_true (q : pattern) :
  forall (s : text), occursb q s = true ->
  exists pre s2 n, s = pre ++ s2 /\ match_at q s2 = Some n.
Proof.
  induction s as [|x s IH]; cbn [occursb]; intros H.
  - destruct (match_at q []) as [n|] eqn:E; [|discriminate].
    by exists [], [], n.
  - destruct (match_at q (x :: s)) as [n|] eqn:E.
    + by exists [], (x :: s), n.
    + destruct (IH H) as (pre & s2 & n & -> & Hn).
      by exists (x :: pre), s2, n.
Qed.

End Split.

(** ** The rules of the script *)

Section Rules.
Import Re Script.

(** The patterns are what [re.compile] makes of the script's sources. *)
Lemma patterns_compiled :
  compile srcA = Some patA /\ compile srcB = Some patB /\
  compile srcC = Some patC /\ compile srcD = Some patD /\
  compile srcE = Some patE.
Proof. repeat split; vm_compute; reflexivity. Qed.

(** No replacement holds a backslash: [re.sub] uses them as they are. *)
Lemma replacements_plain :
  Forall (fun r : text => 92%N ∉ r) [replA; replB; replC; replD; replE].
Proof.
  repeat constructor; intros H; apply list_elem_of_In in H;
    vm_compute in H; intuition discriminate.
Qed.

Lemma lookahead_passes (c : char) (rest : text) :
  head rest <> Some c -> match_at [NotAhead c] rest = Some 0.
Proof.
  destruct rest as [|x rest]; [done|].
  simpl. intros H. destruct (N.eqb_spec x c) as [->|]; [done|done].
Qed.

Lemma lookahead_fails (c : char) (rest : text) (n : nat) :
  match_at [NotAhead c] rest = Some n -> head rest <> Some c.
Proof.
  destruct rest as [|x rest]; [done|].
  simpl. destruct (N.eqb_spec x c) as [->|]; [done|]. congruence.
Qed.

Lemma ruleD_at_word (rest : text) :
  head rest <> Some (chr ")") -> ruleD (wordD ++ rest) = replD ++ ruleD rest.
Proof.
  intros H. unfold ruleD.
  assert (E : match_at patD (wordD ++ rest) = Some 20).
  { unfold patD. rewrite match_word, (lookahead_passes _ _ H). done. }
  rewrite (sub_hit _ _ _ _ E). f_equal.
Qed.

Lemma ruleD_at_call (rest : text) :
  ruleD (wordD ++ chr ")" :: rest) = wordD ++ chr ")" :: ruleD rest.
Proof. reflexivity. Qed.

Lemma ruleD_split (pre rest : text) :
  ruleD (pre ++ wordD ++ rest) = ruleD pre ++ ruleD (wordD ++ rest).
Proof.
  unfold ruleD.
  change (wordD ++ rest) with (chr "c" :: (tail wordD ++ rest)).
  by apply sub_unstraddled.
Qed.

(** C2. Rule D rewrites [const id = params.id] into
    [const { id } = await params] wherever the text is not directly
    followed by a closing parenthesis, leaves it as it is where a closing
    parenthesis follows, and changes nothing in a text whose occurrences
    are all followed by a closing parenthesis. *)
Theorem ruleD_replaces_unless_paren :
  wordD = str_of "const id = params.id" /\
  replD = str_of "const { id } = await params" /\
  (forall pre rest : text,
      head rest <> Some (chr ")") ->
      ruleD (pre ++ wordD ++ rest) = ruleD pre ++ replD ++ ruleD rest) /\
  (forall pre rest : text,
      ruleD (pre ++ wordD ++ chr ")" :: rest) =
      ruleD pre ++ wordD ++ chr ")" :: ruleD rest) /\
  (forall t : text,
      (forall pre rest : text,
          t = pre ++ wordD ++ rest -> head rest = Some (chr ")")) ->
      ruleD t = t).
Proof.
  split; [done|]. split; [done|]. split; [|split].
  - intros pre rest H. by rewrite ruleD_split, ruleD_at_word.
  - intros pre rest. by rewrite ruleD_split, ruleD_at_call.
  - intros t H. apply sub_no_occurrence.
    destruct (occursb patD t) eqn:E; [|done].
    destruct (occursb_true _ _ E) as (pre & s2 & n & -> & Hn).
    unfold patD in Hn.
    destruct (match_word_inv _ _ _ _ Hn) as (rest & m & -> & Hm).
    apply lookahead_fails in Hm. by specialize (H _ _ eq_refl).
Qed.

Lemma ruleD_replaces_unless_paren_witness :
  ruleD (str_of "x; " ++ wordD ++ str_of ";") =
  ruleD (str_of "x; ") ++ replD ++ ruleD (str_of ";").
Proof.
  apply (proj1 (proj2 (proj2 ruleD_replaces_unless_paren))).
  vm_compute. discriminate.
Defined.

Lemma ruleC_at_word (rest : text) :
  ruleC (wordC ++ rest) = replC ++ ruleC rest.
Proof.
  unfold ruleC.
  assert (E : match_at patC (wordC ++ rest) = Some 30).
  { unfold patC. rewrite <- (app_nil_r (map Chr wordC)).
    by rewrite match_word. }
  rewrite (sub_hit _ _ _ _ E). f_equal.
Qed.

Lemma ruleC_split (pre rest : text) :
  ruleC (pre ++ wordC ++ rest) = ruleC pre ++ ruleC (wordC ++ rest).
Proof.
  unfold ruleC.
  change (wordC ++ rest) with (chr "c" :: (tail wordC ++ rest)).
  by apply sub_unstraddled.
Qed.

(** C3. Rule C rewrites every [const id = parseInt(params.id)] into
    [const { id: paramId } = await params], a line break, four spaces and
    [const id = parseInt(paramId)], and changes nothing in a text where
    the statement does not occur. *)
Theorem ruleC_replaces_statement :
  wordC = str_of "const id = parseInt(params.id)" /\
  replC = str_of "const { id: paramId } = await params" ++ [LF] ++
          str_of "    " ++ str_of "const id = parseInt(paramId)" /\
  (forall pre rest : text,
      ruleC (pre ++ wordC ++ rest) = ruleC pre ++ replC ++ ruleC rest) /\
  (forall t : text,
      (forall pre rest : text, t <> pre ++ wordC ++ rest) -> ruleC t = t).
Proof.
  split; [done|]. split; [done|]. split.
  - intros pre rest. by rewrite ruleC_split, ruleC_at_word.
  - intros t H. apply sub_no_occurrence.
    destruct (occursb patC t) eqn:E; [|done].
    destruct (occursb_true _ _ E) as (pre & s2 & n & -> & Hn).
    unfold patC in Hn. rewrite <- (app_nil_r (map Chr wordC)) in Hn.
    destruct (match_word_inv _ _ _ _ Hn) as (rest & m & -> & Hm).
    by destruct (H pre rest).
Qed.

Lemma ruleC_replaces_statement_witness :
  ruleC (str_of "return id") = str_of "return id".
Proof.
  apply (proj2 (proj2 (proj2 ruleC_replaces_statement))).
  intros pre rest H. apply (f_equal length) in H.
  rewrite !length_app in H.
  change (length (str_of "return id")) with 9 in H.
  change (length wordC) with 30 in H. lia.
Defined.

End Rules.

(** ** Shapes *)

Section Shapes.
Import Re.

Lemma fill_C (c : char) (u : list sym) (ws : list text) :
  fill (C c :: u) ws = c :: fill u ws.
Proof. reflexivity. Qed.

Lemma blank_cons (y : char) (w : text) :
  blank (y :: w) <-> is_space y = true /\ blank w.
Proof. apply (Forall_cons (fun x => is_space x = true)). Qed.

Lemma match_star_ws (c : char) (q : pattern) (s : text) :
  is_space c = false ->
  forall (w : text), blank w ->
    match_at (SpaceStar :: Chr c :: q) (w ++ s) =
    (fun n => length w + n) <$> match_at (SpaceStar :: Chr c :: q) s.
Proof.
  intros Hc. induction w as [|y w IH]; intros Hw.
  - cbn [app length]. by destruct (match_at (SpaceStar :: Chr c :: q) s).
  - apply blank_cons in Hw as [Hy Hw].
    rewrite <- app_comm_cons, match_at_star_cons, Hy, (IH Hw).
    destruct (match_at (SpaceStar :: Chr c :: q) s); [done|].
    cbn [fmap option_fmap option_map]. rewrite match_at_chr_cons.
    destruct (N.eqb_spec y c) as [->|]; [congruence|done].
Qed.

Lemma blank_tl (ws : list text) : Forall blank ws -> Forall blank (tl ws).
Proof. destruct ws; [done|]. by intros [_ H]%Forall_cons. Qed.

Lemma blank_hd (ws : list text) : Forall blank ws -> blank (hd [] ws).
Proof. destruct ws; [constructor|]. by intros [H _]%Forall_cons. Qed.

(** The pattern of a shape matches every text of that shape. *)
Lemma match_fill (q : pattern) (s : text) :
  forall (u : list sym) (ws : list text),
    well_spaced u = true -> Forall blank ws ->
    match_at (pattern_of u ++ q) (fill u ws ++ s) =
    (fun n => length (fill u ws) + n) <$> match_at q s.
Proof.
  induction u as [|[c|] u IH]; intros ws Hu Hws.
  - cbn [pattern_of map fill app length]. by destruct (match_at q s).
  - cbn [pattern_of map fill app]. rewrite match_at_chr_cons, N.eqb_refl.
    change (map _ u) with (pattern_of u). rewrite (IH ws Hu Hws).
    by destruct (match_at q s).
  - cbn [well_spaced] in Hu.
    destruct u as [|[c|] u]; try discriminate.
    apply andb_true_iff in Hu as [Hc Hu]. apply negb_true_iff in Hc.
    specialize (IH (tl ws) Hu (blank_tl _ Hws)).
    cbn [pattern_of map fill app] in IH |- *.
    rewrite <- app_assoc, <- app_comm_cons.
    rewrite (match_star_ws _ _ _ Hc _ (blank_hd _ Hws)).
    rewrite match_at_star_cons, Hc, IH.
    destruct (match_at q s); [|done].
    cbn [fmap option_fmap option_map]. f_equal.
    rewrite length_app. cbn [length]. lia.
Qed.

(** [sdead] is sound. *)
Lemma sdead_sound (s : text) :
  forall (q : pattern) (u : list sym),
    sdead q u = true ->
    forall (ws : list text), Forall blank ws ->
      match_at q (fill u ws ++ s) = None.
Proof.
  induction q as [|a q IHq]; [discriminate|].
  destruct a as [c| |c]; [| |discriminate].
  - induction u as [|[x|] u IHu]; intros H ws Hws; [discriminate| |].
    + cbn [fill app]. rewrite match_at_chr_cons.
      simpl in H. destruct (x =? c)%N; [|done].
      by rewrite (IHq u H ws Hws).
    + change (sdead (Chr c :: q) (W :: u))
        with (negb (is_space c) && sdead (Chr c :: q) u) in H.
      apply andb_true_iff in H as [Hc H]. apply negb_true_iff in Hc.
      cbn [fill]. pose proof (blank_hd _ Hws) as Hw.
      destruct (hd [] ws) as [|y w].
      * apply (IHu H _ (blank_tl _ Hws)).
      * apply blank_cons in Hw as [Hy _].
        rewrite <- !app_comm_cons, match_at_chr_cons.
        destruct (N.eqb_spec y c) as [->|]; [congruence|done].
  - induction u as [|[x|] u IHu]; intros H ws Hws; [discriminate| |].
    + cbn [fill app]. rewrite match_at_star_cons.
      change (sdead (SpaceStar :: q) (C x :: u))
        with (if is_space x
              then sdead (SpaceStar :: q) u && sdead q (C x :: u)
              else sdead q (C x :: u)) in H.
      destruct (is_space x).
      * apply andb_true_iff in H as [H1 H2].
        rewrite (IHu H1 ws Hws). apply (IHq (C x :: u) H2 ws Hws).
      * apply (IHq (C x :: u) H ws Hws).
    + change (sdead (SpaceStar :: q) (W :: u))
        with (sdead (SpaceStar :: q) u && sdead q (W :: u)) in H.
      apply andb_true_iff in H as [H1 H2].
      cbn [fill]. pose proof (blank_hd _ Hws) as Hw.
      pose proof (blank_tl _ Hws) as Hws'.
      induction (hd [] ws) as [|y w IHw].
      * apply (IHu H1 _ Hws').
      * pose proof Hw as [Hy Hw']%blank_cons.
        rewrite <- !app_comm_cons, match_at_star_cons, Hy.
        rewrite <- app_assoc in IHw. rewrite <- app_assoc, (IHw Hw').
        assert (Hrun : Forall blank ((y :: w) :: tl ws)) by by constructor.
        pose proof (IHq (W :: u) H2 _ Hrun) as Hq.
        cbn [fill hd tl] in Hq. by rewrite <- app_assoc in Hq.
Qed.

(** No match that starts earlier goes over a text of shape [u]. *)
Lemma all_sdead_cut (u : list sym) (ws : list text) (s : text) :
  Forall blank ws ->
  forall (q : pattern), all_sdead u q = true -> cut_at (fill u ws ++ s) q.
Proof.
  intros Hws. unfold cut_at.
  induction q as [|a q IH]; cbn [all_sdead tails]; intros H.
  - by repeat constructor.
  - apply andb_true_iff in H as [H H3]. apply andb_true_iff in H as [H1 H2].
    constructor; [|by apply IH].
    rewrite (sdead_sound s _ _ H1 ws Hws).
    by destruct (match_at (a :: q) []).
Qed.

End Shapes.

(** ** Rule A *)

Section RuleA.
Import Re Script.

Lemma patA_shape : patA = pattern_of shapeA.
Proof. vm_compute. reflexivity. Qed.

Lemma patA_head : patA = Chr (chr "{") :: tail patA.
Proof. vm_compute. reflexivity. Qed.

Lemma shapeA_head : shapeA = C (chr "{") :: tail shapeA.
Proof. vm_compute. reflexivity. Qed.

Lemma shapeA_well_spaced : well_spaced shapeA = true.
Proof. vm_compute. reflexivity. Qed.

Lemma shapeA_cut : all_sdead shapeA (tail patA) = true.
Proof. vm_compute. reflexivity. Qed.

Lemma fill_shapeA_head (ws : list text) :
  fill shapeA ws = chr "{" :: fill (tail shapeA) ws.
Proof. rewrite shapeA_head at 1. apply fill_C. Qed.

Lemma match_nil_fmap (k : nat) (rest : text) :
  (fun n => k + n) <$> match_at [] rest = Some (k + 0).
Proof. reflexivity. Qed.

Lemma match_signature (ws : list text) (rest : text) :
  Forall blank ws ->
  match_at patA (fill shapeA ws ++ rest) =
  Some (S (length (fill (tail shapeA) ws))).
Proof.
  intros Hws.
  pose proof (match_fill [] rest shapeA ws shapeA_well_spaced Hws) as E.
  rewrite app_nil_r in E. rewrite <- patA_shape in E.
  rewrite E, match_nil_fmap, fill_shapeA_head, length_cons.
  f_equal. lia.
Qed.

Lemma ruleA_at_signature (ws : list text) (rest : text) :
  Forall blank ws -> ruleA (fill shapeA ws ++ rest) = replA ++ ruleA rest.
Proof.
  intros Hws. unfold ruleA.
  rewrite (sub_hit _ _ _ _ (match_signature ws rest Hws)).
  rewrite <- (length_cons (chr "{") (fill (tail shapeA) ws)).
  rewrite <- fill_shapeA_head.
  by rewrite drop_app_length.
Qed.

Lemma ruleA_split (ws : list text) (pre rest : text) :
  Forall blank ws ->
  ruleA (pre ++ fill shapeA ws ++ rest) =
  ruleA pre ++ ruleA (fill shapeA ws ++ rest).
Proof.
  intros Hws. unfold ruleA. rewrite patA_head.
  apply sub_cut. apply all_sdead_cut; [exact Hws | exact shapeA_cut].
Qed.

(** C4, as the code has it.  Rule A matches the signature
    [{ params }: { params: { id: string } }] with any white space, line
    breaks included, or none, in the place of each of its nine spaces
    (none of which stands before a colon), and rewrites every such
    occurrence, wherever it is in the text, into
    [{ params }: { params: Promise<{ id: string }> }]. *)
Theorem ruleA_any_whitespace :
  patA = pattern_of (shape "{ params }: { params: { id: string } }") /\
  replA = str_of "{ params }: { params: Promise<{ id: string }> }" /\
  is_space LF = true /\
  (forall (ws : list text) (pre rest : text),
      Forall blank ws ->
      ruleA (pre ++ fill shapeA ws ++ rest) =
      ruleA pre ++ replA ++ ruleA rest).
Proof.
  split; [exact patA_shape|]. split; [reflexivity|].
  split; [vm_compute; reflexivity|].
  intros ws pre rest Hws.
  rewrite (ruleA_split ws pre rest Hws).
  rewrite (ruleA_at_signature ws rest Hws). reflexivity.
Qed.

(** C4, as the claim states it, fails.  With white space allowed between
    all the tokens of the signature, the colons included, a single space
    between the first closing brace and its colon gives a text that rule A
    does not rewrite. *)
Lemma space_before_colon_is_not_rewritten :
  ~ (forall w1 w2 w3 w4 w5 w6 w7 w8 w9 w10 w11 w12 : text,
        Forall blank [w1; w2; w3; w4; w5; w6; w7; w8; w9; w10; w11; w12] ->
        ruleA (str_of "{" ++ w1 ++ str_of "params" ++ w2 ++ str_of "}" ++
               w3 ++ str_of ":" ++ w4 ++ str_of "{" ++ w5 ++
               str_of "params" ++ w6 ++ str_of ":" ++ w7 ++ str_of "{" ++
               w8 ++ str_of "id" ++ w9 ++ str_of ":" ++ w10 ++
               str_of "string" ++ w11 ++ str_of "}" ++ w12 ++ str_of "}") =
        replA).
Proof.
  intros H.
  specialize (H [32%N] [32%N] [32%N] [32%N] [32%N] [] [32%N] [32%N] []
                [32%N] [32%N] [32%N]).
  assert (Hws : Forall blank
                  [[32%N]; [32%N]; [32%N]; [32%N]; [32%N]; []; [32%N];
                   [32%N]; []; [32%N]; [32%N]; [32%N]])
    by (unfold blank; repeat constructor).
  specialize (H Hws). vm_compute in H. discriminate.
Qed.

Lemma ruleA_any_whitespace_witness :
  ruleA (str_of "f(" ++ fill shapeA [[LF]; []; [32%N; 32%N]] ++ str_of ")") =
  ruleA (str_of "f(") ++ replA ++ ruleA (str_of ")").
Proof.
  apply (proj2 (proj2 (proj2 ruleA_any_whitespace))).
  unfold blank. repeat constructor.
Defined.

End RuleA.

(** ** The loop *)

Section Loop.
Import Re Script.

Lemma listed_nodup : NoDup files_to_fix.
Proof. apply (bool_decide_unpack _). vm_compute. reflexivity. Qed.

(** The loop body never raises, and does what [step] says. *)
Lemma process_step (filepath : string) (w : world) :
  process filepath w = (Ok tt, step w filepath).
Proof.
  unfold process, try_except, rewrite_file, bind, read_file, step,
    disk_after, outcome_of, calls_of, status_line.
  destruct w as [d out cs]. cbn [disk stdout calls log_call].
  destruct (d !! filepath) as [[data ro|e]|] eqn:E; [|done|done].
  destruct (decide (transform data <> data)) as [Hne|Heq];
    unfold write_file, print, log_call; cbn [disk stdout calls]; [|done].
  rewrite E. destruct ro as [e|]; cbn [disk stdout calls];
    by rewrite <- app_assoc.
Qed.

Lemma for_each_process (l : list string) :
  forall (w : world), for_each l process w = (Ok tt, foldl step w l).
Proof.
  induction l as [|x l IH]; intros w; [done|].
  cbn [for_each foldl]. unfold bind. by rewrite process_step, IH.
Qed.

Lemma run_step (l : list string) (w : world) :
  (for_each l process ;; print (LF :: str_of "Done!")) w =
  (Ok tt, finish (foldl step w l)).
Proof. unfold bind. by rewrite for_each_process. Qed.

Lemma main_step (w : world) :
  main w = (Ok tt, finish (foldl step w files_to_fix)).
Proof. apply run_step. Qed.

Lemma main_world (w : world) :
  (main w).2 = finish (foldl step w files_to_fix).
Proof. by rewrite main_step. Qed.

Lemma disk_finish (w : world) : disk (finish w) = disk w.
Proof. reflexivity. Qed.

Lemma calls_finish (w : world) : calls (finish w) = calls w.
Proof. reflexivity. Qed.

Lemma stdout_finish (w : world) :
  stdout (finish w) = stdout w ++ (LF :: str_of "Done!") ++ [LF].
Proof. reflexivity. Qed.

Lemma step_no_changes (w : world) (f : string) :
  outcome_of (disk w) f = NoChanges ->
  calls_of (disk w) f = [OpenRead f] ->
  step w f = World (disk w) (stdout w ++ line_no_changes f ++ [LF])
                   (calls w ++ [OpenRead f]).
Proof. intros Ho Hc. unfold step, disk_after. by rewrite Ho, Hc. Qed.

Lemma outcome_of_ext (d d' : gmap string node) (filepath : string) :
  d !! filepath = d' !! filepath ->
  outcome_of d filepath = outcome_of d' filepath.
Proof. unfold outcome_of. by intros ->. Qed.

Lemma calls_of_ext (d d' : gmap string node) (filepath : string) :
  d !! filepath = d' !! filepath ->
  calls_of d filepath = calls_of d' filepath.
Proof. unfold calls_of. by intros ->. Qed.

Lemma disk_after_other (d : gmap string node) (filepath other : string) :
  other <> filepath -> disk_after d filepath !! other = d !! other.
Proof.
  intros Hne. unfold disk_after.
  destruct (outcome_of d filepath); [|done..].
  by rewrite lookup_insert_ne.
Qed.

(** Paths that are not in the list keep what they hold. *)
Lemma foldl_step_other (l : list string) (other : string) :
  other ∉ l ->
  forall (w : world), disk (foldl step w l) !! other = disk w !! other.
Proof.
  induction l as [|x l IH]; intros Hnot w; [done|].
  apply not_elem_of_cons in Hnot as [Hne Hnot].
  cbn [foldl]. rewrite (IH Hnot). cbn [step disk].
  by apply disk_after_other.
Qed.

(** With distinct paths, every pass sees its file as it was at the start. *)
Lemma foldl_step_stdout (l : list string) :
  NoDup l ->
  forall (w : world),
    stdout (foldl step w l) =
    stdout w ++
    flat_map (fun f => status_line f (outcome_of (disk w) f) ++ [LF]) l.
Proof.
  induction l as [|x l IH]; intros Hnd w; cbn [foldl flat_map].
  - by rewrite app_nil_r.
  - apply NoDup_cons in Hnd as [Hx Hnd].
    rewrite (IH Hnd). cbn [step stdout disk].
    rewrite <- !app_assoc. do 3 f_equal.
    clear IH. induction l as [|y l IHl]; [done|].
    apply not_elem_of_cons in Hx as [Hxy Hx].
    apply NoDup_cons in Hnd as [_ Hnd].
    cbn [flat_map]. rewrite (IHl Hx Hnd). do 2 f_equal.
    f_equal. apply outcome_of_ext. by apply disk_after_other.
Qed.

Lemma foldl_step_calls (l : list string) :
  NoDup l ->
  forall (w : world),
    calls (foldl step w l) = calls w ++ flat_map (calls_of (disk w)) l.
Proof.
  induction l as [|x l IH]; intros Hnd w; cbn [foldl flat_map].
  - by rewrite app_nil_r.
  - apply NoDup_cons in Hnd as [Hx Hnd].
    rewrite (IH Hnd). cbn [step calls disk].
    rewrite <- !app_assoc. do 2 f_equal.
    clear IH. induction l as [|y l IHl]; [done|].
    apply not_elem_of_cons in Hx as [Hxy Hx].
    apply NoDup_cons in Hnd as [_ Hnd].
    cbn [flat_map]. rewrite (IHl Hx Hnd). f_equal.
    apply calls_of_ext. by apply disk_after_other.
Qed.

Lemma foldl_step_disk (l : list string) (filepath : string) :
  NoDup l -> filepath ∈ l ->
  forall (w : world),
    disk (foldl step w l) !! filepath =
    disk_after (disk w) filepath !! filepath.
Proof.
  induction l as [|x l IH]; intros Hnd Hin w; [by apply elem_of_nil in Hin|].
  apply NoDup_cons in Hnd as [Hx Hnd].
  cbn [foldl]. apply elem_of_cons in Hin as [->|Hin].
  - by rewrite (foldl_step_other l x Hx).
  - rewrite (IH Hnd Hin). cbn [step disk].
    assert (Hne : filepath <> x) by (intros ->; contradiction).
    unfold disk_after at 1.
    rewrite (outcome_of_ext _ (disk w) filepath
               (disk_after_other (disk w) x filepath Hne)).
    fold (disk_after (disk w) filepath).
    unfold disk_after.
    destruct (outcome_of (disk w) filepath);
      rewrite ?lookup_insert_eq; by try apply disk_after_other.
Qed.

End Loop.

(** ** The transform *)

Section Transform.
Import Re Script.

(** The output of the five rules holds no match of any of the five
    patterns: each rule removes the matches of its own pattern, and no
    later rule brings one back. *)
Lemma transform_no_match (t : text) :
  occursb patA (transform t) = false /\
  occursb patB (transform t) = false /\
  occursb patC (transform t) = false /\
  occursb patD (transform t) = false /\
  occursb patE (transform t) = false.
Proof.
  unfold transform. cbv zeta.
  set (t1 := sub patA replA t). set (t2 := sub patB replB t1).
  set (t3 := sub patC replC t2). set (t4 := sub patD replD t3).
  assert (A1 : occursb patA t1 = false)
    by (apply sub_no_own_match; vm_compute; reflexivity).
  assert (A2 : occursb patA t2 = false)
    by (apply sub_no_other_match; [vm_compute; reflexivity | exact A1]).
  assert (B2 : occursb patB t2 = false)
    by (apply sub_no_own_match; vm_compute; reflexivity).
  assert (A3 : occursb patA t3 = false)
    by (apply sub_no_other_match; [vm_compute; reflexivity | exact A2]).
  assert (B3 : occursb patB t3 = false)
    by (apply sub_no_other_match; [vm_compute; reflexivity | exact B2]).
  assert (C3 : occursb patC t3 = false)
    by (apply sub_no_own_match; vm_compute; reflexivity).
  assert (A4 : occursb patA t4 = false)
    by (apply sub_no_other_match; [vm_compute; reflexivity | exact A3]).
  assert (B4 : occursb patB t4 = false)
    by (apply sub_no_other_match; [vm_compute; reflexivity | exact B3]).
  assert (C4 : occursb patC t4 = false)
    by (apply sub_no_other_match; [vm_compute; reflexivity | exact C3]).
  assert (D4 : occursb patD t4 = false)
    by (apply sub_no_own_match; vm_compute; reflexivity).
  repeat split.
  - apply sub_no_other_match; [vm_compute; reflexivity | exact A4].
  - apply sub_no_other_match; [vm_compute; reflexivity | exact B4].
  - apply sub_no_other_match; [vm_compute; reflexivity | exact C4].
  - apply sub_no_other_match; [vm_compute; reflexivity | exact D4].
  - apply sub_no_own_match; vm_compute; reflexivity.
Qed.

Lemma transform_idem (t : text) : transform (transform t) = transform t.
Proof.
  destruct (transform_no_match t) as (HA & HB & HC & HD & HE).
  unfold transform at 1. cbv zeta.
  rewrite (sub_no_occurrence patA replA _ HA).
  rewrite (sub_no_occurrence patB replB _ HB).
  rewrite (sub_no_occurrence patC replC _ HC).
  rewrite (sub_no_occurrence patD replD _ HD).
  apply (sub_no_occurrence patE replE _ HE).
Qed.

Lemma outcome_fixed_inv (d : gmap string node) (f : string) (content : text) :
  outcome_of d f = Fixed content ->
  exists data, d !! f = Some (File data None) /\ content = transform data.
Proof.
  unfold outcome_of.
  destruct (d !! f) as [[data [e|]|e]|]; try discriminate;
    destruct (decide (transform data <> data)); try discriminate.
  intros [= <-]. eauto.
Qed.

(** C1. The transform is idempotent; no replacement holds a match of its
    own rule's pattern; and a file that a run has rewritten is, on the
    disk that this run leaves, a file that the next run reads, leaves
    unwritten and reports as "No changes". *)
Theorem transform_idempotent :
  (forall t : text, transform (transform t) = transform t) /\
  (occursb patA replA = false /\ occursb patB replB = false /\
   occursb patC replC = false /\ occursb patD replD = false /\
   occursb patE replE = false) /\
  (forall (w : world) (f : string) (content : text),
      f ∈ files_to_fix ->
      outcome_of (disk w) f = Fixed content ->
      outcome_of (disk (main w).2) f = NoChanges /\
      calls_of (disk (main w).2) f = [OpenRead f] /\
      process f (main w).2 =
      (Ok tt, World (disk (main w).2)
                    (stdout (main w).2 ++
                     ([9197%N; 65039%N] ++ str_of "  No changes: " ++ str_of f) ++ [LF])
                    (calls (main w).2 ++ [OpenRead f]))).
Proof.
  split; [exact transform_idem|].
  split; [repeat split; vm_compute; reflexivity|].
  intros w f content Hin Hfix.
  destruct (outcome_fixed_inv _ _ _ Hfix) as (data & Hd & ->).
  assert (Hlook : disk (main w).2 !! f = Some (File (transform data) None)).
  { rewrite main_world, disk_finish.
    rewrite (foldl_step_disk _ _ listed_nodup Hin).
    unfold disk_after. rewrite Hfix. apply lookup_insert_eq. }
  assert (Ho : outcome_of (disk (main w).2) f = NoChanges).
  { unfold outcome_of. rewrite Hlook.
    destruct (decide _) as [Hne|_]; [|done].
    by destruct (Hne (transform_idem data)). }
  assert (Hc : calls_of (disk (main w).2) f = [OpenRead f]).
  { unfold calls_of. rewrite Hlook.
    destruct (decide _) as [Hne|_]; [|done].
    by destruct (Hne (transform_idem data)). }
  split; [exact Ho|]. split; [exact Hc|].
  change ([9197%N; 65039%N] ++ str_of "  No changes: " ++ str_of f)
    with (line_no_changes f).
  rewrite process_step. f_equal. by apply step_no_changes.
Qed.

Lemma transform_idempotent_witness :
  outcome_of (disk (main Samples.w_direct).2) Samples.route = NoChanges.
Proof.
  refine (proj1 (proj2 (proj2 transform_idempotent)
                   Samples.w_direct Samples.route
                   (str_of "const { id } = await params;") _ _)).
  - apply (bool_decide_unpack _). vm_compute. reflexivity.
  - vm_compute. reflexivity.
Defined.

(** C7. The transform is rule A, then B, then C, then D, then E, each on
    the text that the rule before it produced, and each replacing every
    non-overlapping match of its pattern, found from the left, and keeping
    everything else. *)
Theorem transform_is_pipeline :
  forall t : text,
    transform t = ruleE (ruleD (ruleC (ruleB (ruleA t)))) /\
    replace_all patA replA t (ruleA t) /\
    replace_all patB replB (ruleA t) (ruleB (ruleA t)) /\
    replace_all patC replC (ruleB (ruleA t)) (ruleC (ruleB (ruleA t))) /\
    replace_all patD replD (ruleC (ruleB (ruleA t)))
                (ruleD (ruleC (ruleB (ruleA t)))) /\
    replace_all patE replE (ruleD (ruleC (ruleB (ruleA t)))) (transform t).
Proof.
  intros t. split; [reflexivity|].
  assert (HA : exists c q, patA = Chr c :: q) by (vm_compute; eauto).
  assert (HB : exists c q, patB = Chr c :: q) by (vm_compute; eauto).
  assert (HC : exists c q, patC = Chr c :: q) by (vm_compute; eauto).
  assert (HD : exists c q, patD = Chr c :: q) by (vm_compute; eauto).
  assert (HE : exists c q, patE = Chr c :: q) by (vm_compute; eauto).
  destruct HA as (cA & qA & HA), HB as (cB & qB & HB), HC as (cC & qC & HC),
    HD as (cD & qD & HD), HE as (cE & qE & HE).
  unfold transform, ruleA, ruleB, ruleC, ruleD, ruleE. cbv zeta.
  rewrite HA, HB, HC, HD, HE.
  repeat split; apply replace_all_sub.
Qed.

End Transform.

(** ** One file *)

Section OneFile.
Import Re Script.

(** The status lines, character by character. *)
Lemma line_fixed_text (f : string) :
  line_fixed f = [9989%N] ++ str_of " Fixed: " ++ str_of f.
Proof. reflexivity. Qed.


Lemma line_not_found_text (f : string) :
  line_not_found f = [10060%N] ++ str_of " Not found: " ++ str_of f.
Proof. reflexivity. Qed.

Lemma line_error_text (f : string) (e : text) :
  line_error f e =
  [10060%N] ++ str_of " Error processing " ++ str_of f ++ str_of ": " ++ e.
Proof. reflexivity. Qed.


Lemma process_fixed (w : world) (f : string) (data : text) :
  disk w !! f = Some (File data None) -> transform data <> data ->
  process f w =
  (Ok tt, World (<[f := File (transform data) None]> (disk w))
                (stdout w ++ line_fixed f ++ [LF])
                (calls w ++ [OpenRead f; OpenWrite f])).
Proof.
  intros Hd Hne. rewrite process_step. f_equal.
  unfold step, disk_after, outcome_of, calls_of. rewrite Hd.
  by destruct (decide (transform data <> data)).
Qed.

Lemma process_write_failed (w : world) (f : string) (data e : text) :
  disk w !! f = Some (File data (Some e)) -> transform data <> data ->
  process f w =
  (Ok tt, World (disk w) (stdout w ++ line_error f e ++ [LF])
                (calls w ++ [OpenRead f; OpenWrite f])).
Proof.
  intros Hd Hne. rewrite process_step. f_equal.
  unfold step, disk_after, outcome_of, calls_of. rewrite Hd.
  by destruct (decide (transform data <> data)).
Qed.

Lemma process_not_found (w : world) (f : string) :
  disk w !! f = None ->
  process f w =
  (Ok tt, World (disk w) (stdout w ++ line_not_found f ++ [LF])
                (calls w ++ [OpenRead f])).
Proof.
  intros Hd. rewrite process_step. f_equal.
  unfold step, disk_after, outcome_of, calls_of. by rewrite Hd.
Qed.

Lemma process_broken (w : world) (f : string) (e : text) :
  disk w !! f = Some (Broken e) ->
  process f w =
  (Ok tt, World (disk w) (stdout w ++ line_error f e ++ [LF])
                (calls w ++ [OpenRead f])).
Proof.
  intros Hd. rewrite process_step. f_equal.
  unfold step, disk_after, outcome_of, calls_of. by rewrite Hd.
Qed.

(** The [try] block itself does raise where the file is missing: it is the
    handler that turns the exception into a status line. *)
Lemma rewrite_file_raises (w : world) (f : string) :
  disk w !! f = None ->
  rewrite_file f w =
  (Raise FileNotFoundError,
   World (disk w) (stdout w) (calls w ++ [OpenRead f])).
Proof.
  intros Hd. unfold rewrite_file, bind, read_file, log_call. by rewrite Hd.
Qed.





(** C6. A missing file gives exactly one "Not found" line, no write and
    no change on the disk; every other exception of the [try] block, at
    the read or at the write, gives an "Error processing" line with its
    message; the loop body never raises, so the loop goes on with the
    paths that follow, in order. *)
Theorem errors_stay_in_their_file :
  (forall (w : world) (f : string),
      disk w !! f = None ->
      rewrite_file f w =
      (Raise FileNotFoundError,
       World (disk w) (stdout w) (calls w ++ [OpenRead f])) /\
      process f w =
      (Ok tt, World (disk w)
                    (stdout w ++ ([10060%N] ++ str_of " Not found: " ++ str_of f) ++ [LF])
                    (calls w ++ [OpenRead f]))) /\
  (forall (w : world) (f : string) (e : text),
      disk w !! f = Some (Broken e) ->
      process f w =
      (Ok tt, World (disk w)
                    (stdout w ++
                     ([10060%N] ++ str_of " Error processing " ++ str_of f ++
          str_of ": " ++ e) ++ [LF])
                    (calls w ++ [OpenRead f]))) /\
  (forall (w : world) (f : string) (data e : text),
      disk w !! f = Some (File data (Some e)) ->
      transform data <> data ->
      process f w =
      (Ok tt, World (disk w)
                    (stdout w ++
                     ([10060%N] ++ str_of " Error processing " ++ str_of f ++
          str_of ": " ++ e) ++ [LF])
                    (calls w ++ [OpenRead f; OpenWrite f]))) /\
  (forall (w : world) (f : string), exists w', process f w = (Ok tt, w')) /\
  (forall (before after : list string) (f : string) (w : world),
      for_each (before ++ f :: after) process w =
      for_each after process
        (process f (for_each before process w).2).2).
Proof.
  split; [|split; [|split; [|split]]].
  - intros w f Hd. rewrite <- (line_not_found_text f). split;
      [by apply rewrite_file_raises | by apply process_not_found].
  - intros w f e Hd. rewrite <- (line_error_text f e).
    by apply process_broken.
  - intros w f data e Hd Hne. rewrite <- (line_error_text f e).
    exact (process_write_failed w f data e Hd Hne).
  - intros w f. exists (step w f). apply process_step.
  - intros before after f w.
    rewrite !for_each_process, process_step.
    by rewrite foldl_app.
Qed.

Lemma errors_stay_in_their_file_witness :
  process Samples.route Samples.w_empty =
  (Ok tt, World (disk Samples.w_empty)
                (stdout Samples.w_empty ++
                 ([10060%N] ++ str_of " Not found: " ++ str_of Samples.route) ++ [LF])
                (calls Samples.w_empty ++ [OpenRead Samples.route])).
Proof.
  refine (proj2 (proj1 errors_stay_in_their_file
                   Samples.w_empty Samples.route _)).
  vm_compute. reflexivity.
Defined.

End OneFile.

(** ** The whole run *)

Section Run.
Import Re Script.

Lemma calls_of_reads (d : gmap string node) (f : string) :
  map syscall_path (List.filter is_read (calls_of d f)) = [f].
Proof.
  unfold calls_of.
  destruct (d !! f) as [[data ro|e]|]; [|done|done].
  by destruct (decide (transform data <> data)).
Qed.

Lemma calls_of_path (d : gmap string node) (f : string) :
  Forall (fun c => syscall_path c = f) (calls_of d f).
Proof.
  unfold calls_of.
  destruct (d !! f) as [[data ro|e]|]; [|by repeat constructor..].
  destruct (decide (transform data <> data)); by repeat constructor.
Qed.

(** The files are opened for reading once each, in the order of the list. *)
Lemma reads_in_order (d : gmap string node) (l : list string) :
  map syscall_path (List.filter is_read (flat_map (calls_of d) l)) = l.
Proof.
  induction l as [|x l IH]; [done|].
  cbn [flat_map]. rewrite List.filter_app, map_app, calls_of_reads, IH.
  reflexivity.
Qed.

(** Every call is on a path of the list. *)
Lemma calls_listed (d : gmap string node) (l : list string) :
  Forall (fun c => syscall_path c ∈ l) (flat_map (calls_of d) l).
Proof.
  induction l as [|x l IH]; [constructor|].
  cbn [flat_map]. apply Forall_app. split.
  - eapply Forall_impl; [apply calls_of_path|].
    intros c ->. apply elem_of_cons. by left.
  - eapply Forall_impl; [exact IH|].
    intros c Hc. apply elem_of_cons. by right.
Qed.

(** C8. The list has eleven paths, all relative; a run opens each of them for reading
    once, in the order of the list, opens nothing outside of the list,
    and leaves every path that is not in the list as it was. *)
Theorem only_listed_files :
  length files_to_fix = 11 /\
  Forall (fun f => head (list_ascii_of_string f) <> Some "/"%char)
         files_to_fix /\
  forall w : world,
    (exists new : list syscall,
        calls (main w).2 = calls w ++ new /\
        map syscall_path (List.filter is_read new) = files_to_fix /\
        Forall (fun c => syscall_path c ∈ files_to_fix) new) /\
    (forall other : string,
        other ∉ files_to_fix ->
        disk (main w).2 !! other = disk w !! other).
Proof.
  split; [reflexivity|].
  split; [repeat constructor; discriminate|]. intros w. split.
  - exists (flat_map (calls_of (disk w)) files_to_fix).
    split; [|split].
    + rewrite main_world, calls_finish.
      apply (foldl_step_calls _ listed_nodup).
    + apply reads_in_order.
    + apply calls_listed.
  - intros other Hnot.
    rewrite main_world, disk_finish.
    by apply foldl_step_other.
Qed.

Lemma only_listed_files_witness :
  disk (main Samples.w_direct).2 !! "package.json" =
  disk Samples.w_direct !! "package.json".
Proof.
  refine (proj2 (proj2 (proj2 only_listed_files) Samples.w_direct)
            "package.json" _).
  apply (bool_decide_unpack _). vm_compute. reflexivity.
Defined.

(** C9. What a run prints is, for each path of the list in order, one
    status line in one of the four formats, then an empty line, then the
    line [Done!]. *)
Theorem console_output :
  (forall w : world,
      stdout (main w).2 =
      stdout w ++
      flat_map (fun f => status_line f (outcome_of (disk w) f) ++ [LF])
               files_to_fix ++
      [LF] ++ str_of "Done!" ++ [LF]) /\
  (forall (f : string) (o : outcome),
      status_line f o = [9989%N] ++ str_of " Fixed: " ++ str_of f \/
      status_line f o =
        [9197%N; 65039%N] ++ str_of "  No changes: " ++ str_of f \/
      status_line f o = [10060%N] ++ str_of " Not found: " ++ str_of f \/
      exists e : text,
        status_line f o =
        [10060%N] ++ str_of " Error processing " ++ str_of f ++
        str_of ": " ++ e).
Proof.
  split.
  - intros w. rewrite main_world, stdout_finish.
    rewrite (foldl_step_stdout _ listed_nodup).
    by rewrite <- app_assoc.
  - intros f [content| | |e]; cbn [status_line]; eauto.
Qed.

Lemma transform_idx :
  transform (str_of "const id = params.idx") =
  str_of "const { id } = await paramsx".
Proof. vm_compute. reflexivity. Qed.

Lemma sample_idx_changes :
  transform (str_of "const id = params.idx") <>
  str_of "const id = params.idx".
Proof. vm_compute. discriminate. Qed.

(** C10. Rule D rewrites [const id = params.id] before any character
    other than a closing parenthesis, a letter included: the text
    [const id = params.idx] becomes [const { id } = await paramsx], and a
    listed file that holds it is written and reported "Fixed". *)
Theorem ruleD_rewrites_longer_property :
  transform (str_of "const id = params.idx") =
    str_of "const { id } = await paramsx" /\
  (forall (pre rest : text) (x : char),
      x <> chr ")" ->
      ruleD (pre ++ wordD ++ x :: rest) =
      ruleD pre ++ replD ++ ruleD (x :: rest)) /\
  Samples.route ∈ files_to_fix /\
  process Samples.route Samples.w_idx =
  (Ok tt,
   World (<[Samples.route :=
              File (str_of "const { id } = await paramsx") None]>
            (disk Samples.w_idx))
         (stdout Samples.w_idx ++
          ([9989%N] ++ str_of " Fixed: " ++ str_of Samples.route) ++ [LF])
         (calls Samples.w_idx ++
          [OpenRead Samples.route; OpenWrite Samples.route])).
Proof.
  split; [exact transform_idx|]. split; [|split].
  - intros pre rest x Hx.
    rewrite ruleD_split, ruleD_at_word; [done|].
    cbn [head]. congruence.
  - apply (bool_decide_unpack _). vm_compute. reflexivity.
  - rewrite <- transform_idx, <- (line_fixed_text Samples.route).
    apply process_fixed.
    + vm_compute. reflexivity.
    + exact sample_idx_changes.
Qed.

Lemma ruleD_rewrites_longer_property_witness :
  ruleD ([] ++ wordD ++ chr "x" :: []) =
  ruleD [] ++ replD ++ ruleD (chr "x" :: []).
Proof.
  apply (proj1 (proj2 ruleD_rewrites_longer_property)).
  vm_compute. discriminate.
Defined.

End Run.

(** ** Passing over a text *)

Section Passing.
Import Re Script Pass.

Lemma apart_on_sound (u : text) (q : pattern) (s : text) :
  apart_on u q = true -> match_at q (u ++ s) = match_at q [].
Proof.
  unfold apart_on. destruct (match_at q []) as [[|n]|]; [| done |].
  - destruct u as [|c u]; [done|]. intros H.
    rewrite <- app_comm_cons. by apply skippable_sound.
  - intros H. by apply dead_sound.
Qed.

Lemma all_apart_on_cut (u s : text) :
  forall (q : pattern), all_apart_on u q = true -> cut_at (u ++ s) q.
Proof.
  unfold cut_at.
  induction q as [|a q IH]; cbn [all_apart_on tails]; intros H.
  - apply andb_true_iff in H as [H _].
    constructor; [by apply apart_on_sound | constructor].
  - apply andb_true_iff in H as [H H'].
    constructor; [by apply apart_on_sound | by apply IH].
Qed.

(** Where no match can start, the scan copies. *)
Lemma sub_copy_dead (p : pattern) (r : text) (s : text) :
  forall (u : text), all_dead p u = true -> sub p r (u ++ s) = u ++ sub p r s.
Proof.
  induction u as [|x u IH]; [done|].
  cbn [all_dead]. intros H. apply andb_true_iff in H as [Hd Hu].
  pose proof (dead_sound _ _ Hd s) as E.
  cbn [app] in E |- *.
  rewrite (sub_keep _ _ _ _ E). f_equal. by apply IH.
Qed.

(** A text that the rule passes is copied, and splits the scan. *)
Lemma sub_passes (p : pattern) (r : text) (u : text) :
  passes p u = true ->
  forall (pre s : text),
    sub p r (pre ++ u ++ s) = sub p r pre ++ u ++ sub p r s.
Proof.
  unfold passes. destruct p as [|[c| |] q]; try discriminate.
  intros H pre s. apply andb_true_iff in H as [Hcut Hdead].
  rewrite (sub_cut c q r (u ++ s) (all_apart_on_cut u s q Hcut) pre).
  f_equal. by apply sub_copy_dead.
Qed.

Lemma sub_copy_shape (p : pattern) (r : text) (s : text) :
  forall (u : list sym), never_starts p u = true ->
  forall (ws : list text), Forall blank ws ->
    sub p r (fill u ws ++ s) = fill u ws ++ sub p r s.
Proof.
  induction u as [|[c|] u IH]; intros H ws Hws; [done| |].
  - cbn [never_starts] in H. apply andb_true_iff in H as [Hd Hu].
    pose proof (sdead_sound s _ _ Hd ws Hws) as E.
    rewrite fill_C in E |- *. cbn [app] in E |- *.
    rewrite (sub_keep _ _ _ _ E). f_equal. by apply IH.
  - cbn [never_starts] in H. apply andb_true_iff in H as [Hd Hu].
    cbn [fill]. pose proof (blank_hd _ Hws) as Hw.
    pose proof (blank_tl _ Hws) as Hws'.
    induction (hd [] ws) as [|y w IHw].
    + by apply IH.
    + pose proof Hw as [Hy Hw']%blank_cons.
      assert (Hrun : Forall blank ((y :: w) :: tl ws)) by by constructor.
      pose proof (sdead_sound s _ _ Hd _ Hrun) as E.
      cbn [fill hd tl] in E.
      rewrite <- !app_assoc in E. rewrite <- !app_assoc in IHw.
      rewrite <- !app_assoc. cbn [app] in E |- *.
      rewrite (sub_keep _ _ _ _ E). f_equal. by apply IHw.
Qed.


(** The pattern of a shape rewrites every text of that shape, wherever
    it stands. *)
Lemma sub_shape (r : text) (c : char) (u : list sym) (q : pattern) :
  pattern_of (C c :: u) = Chr c :: q ->
  well_spaced (C c :: u) = true ->
  all_sdead (C c :: u) q = true ->
  forall (ws : list text) (pre s : text),
    Forall blank ws ->
    sub (Chr c :: q) r (pre ++ fill (C c :: u) ws ++ s) =
    sub (Chr c :: q) r pre ++ r ++ sub (Chr c :: q) r s.
Proof.
  intros Hp Hwell Hcut ws pre s Hws.
  rewrite (sub_cut c q r _ (all_sdead_cut _ ws s Hws q Hcut) pre).
  f_equal.
  pose proof (match_fill [] s (C c :: u) ws Hwell Hws) as E.
  rewrite app_nil_r, Hp, match_nil_fmap, fill_C, length_cons in E.
  cbn [Nat.add] in E.
  rewrite (sub_hit _ _ _ _ E). f_equal.
  rewrite Nat.add_0_r, <- (length_cons c (fill u ws)).
  by rewrite drop_app_length.
Qed.

(** The first character of what a scan gives: the rule cannot bring a
    character that neither the text nor the replacement starts with. *)
Lemma sub_head_other (c : char) (q : pattern) (r : text) (x : char) :
  starts_other x r = true ->
  forall (s : text),
    head s <> Some x -> head (sub (Chr c :: q) r s) <> Some x.
Proof.
  intros Hr s Hs. destruct s as [|y s]; [done|].
  destruct (match_at (Chr c :: q) (y :: s)) as [n|] eqn:E.
  - destruct (match_chr_inv _ _ _ _ E) as (m & s' & -> & _).
    rewrite (sub_hit _ _ _ _ E).
    destruct r as [|c0 r]; [discriminate|]. cbn [starts_other] in Hr.
    apply negb_true_iff, N.eqb_neq in Hr.
    rewrite <- app_comm_cons. cbn [head]. congruence.
  - by rewrite (sub_keep _ _ _ _ E).
Qed.

End Passing.

(** ** The rules, one occurrence at a time *)

Section Occurrences.
Import Re Script Pass.

Lemma patB_head : patB = Chr (chr "{") :: tail patB.
Proof. vm_compute. reflexivity. Qed.

Lemma patC_head : patC = Chr (chr "c") :: tail patC.
Proof. vm_compute. reflexivity. Qed.

Lemma shapeB_head : shapeB = C (chr "{") :: tail shapeB.
Proof. vm_compute. reflexivity. Qed.

Lemma patB_shape : pattern_of (C (chr "{") :: tail shapeB) =
                   Chr (chr "{") :: tail patB.
Proof. vm_compute. reflexivity. Qed.

Lemma shapeB_well_spaced : well_spaced (C (chr "{") :: tail shapeB) = true.
Proof. vm_compute. reflexivity. Qed.

Lemma shapeB_cut : all_sdead (C (chr "{") :: tail shapeB) (tail patB) = true.
Proof. vm_compute. reflexivity. Qed.


Lemma stepB (ws : list text) (pre rest : text) :
  Forall blank ws ->
  sub patB replB (pre ++ fill shapeB ws ++ rest) =
  sub patB replB pre ++ replB ++ sub patB replB rest.
Proof.
  intros Hws.
  pose proof (sub_shape replB (chr "{") (tail shapeB) (tail patB)
                patB_shape shapeB_well_spaced shapeB_cut ws pre rest Hws)
    as E.
  rewrite <- patB_head, <- shapeB_head in E. exact E.
Qed.

Lemma stepC (pre rest : text) :
  sub patC replC (pre ++ wordC ++ rest) =
  sub patC replC pre ++ replC ++ sub patC replC rest.
Proof.
  pose proof (ruleC_split pre rest) as E.
  rewrite (ruleC_at_word rest) in E. exact E.
Qed.

Lemma stepD (pre rest : text) :
  head rest <> Some (chr ")") ->
  sub patD replD (pre ++ wordD ++ rest) =
  sub patD replD pre ++ replD ++ sub patD replD rest.
Proof.
  intros H. pose proof (ruleD_split pre rest) as E.
  rewrite (ruleD_at_word rest H) in E. exact E.
Qed.

Lemma ruleE_at_word (rest : text) :
  ruleE (wordE ++ rest) = replE ++ ruleE rest.
Proof.
  unfold ruleE.
  assert (E : match_at patE (wordE ++ rest) = Some 28).
  { unfold patE. rewrite <- (app_nil_r (map Chr wordE)).
    by rewrite match_word. }
  rewrite (sub_hit _ _ _ _ E). f_equal.
Qed.

Lemma ruleE_split (pre rest : text) :
  ruleE (pre ++ wordE ++ rest) = ruleE pre ++ ruleE (wordE ++ rest).
Proof.
  unfold ruleE.
  change (wordE ++ rest) with (chr "c" :: (tail wordE ++ rest)).
  by apply sub_unstraddled.
Qed.

Lemma stepE (pre rest : text) :
  sub patE replE (pre ++ wordE ++ rest) =
  sub patE replE pre ++ replE ++ sub patE replE rest.
Proof.
  pose proof (ruleE_split pre rest) as E.
  rewrite (ruleE_at_word rest) in E. exact E.
Qed.

(** A text that all five rules pass splits the transform. *)
Lemma transform_passes (u : text) :
  passes patA u = true -> passes patB u = true -> passes patC u = true ->
  passes patD u = true -> passes patE u = true ->
  forall (pre rest : text),
    transform (pre ++ u ++ rest) = transform pre ++ u ++ transform rest.
Proof.
  intros HA HB HC HD HE pre rest. unfold transform. cbv zeta.
  rewrite (sub_passes patA replA u HA), (sub_passes patB replB u HB),
    (sub_passes patC replC u HC), (sub_passes patD replD u HD),
    (sub_passes patE replE u HE).
  reflexivity.
Qed.

(** X1. Rule B matches the two-field signature
    [{ params }: { params: { id: string, roleId: string } }] with any
    white space, or none, in the place of each of its spaces, and rewrites
    every such occurrence, wherever it stands, into the [Promise] form. *)
Theorem ruleB_any_whitespace :
  patB = pattern_of
           (shape "{ params }: { params: { id: string, roleId: string } }") /\
  replB =
    str_of "{ params }: { params: Promise<{ id: string, roleId: string }> }" /\
  (forall (ws : list text) (pre rest : text),
      Forall blank ws ->
      ruleB (pre ++ fill shapeB ws ++ rest) =
      ruleB pre ++ replB ++ ruleB rest).
Proof.
  split; [vm_compute; reflexivity|]. split; [reflexivity|].
  intros ws pre rest Hws. exact (stepB ws pre rest Hws).
Qed.

Lemma ruleB_any_whitespace_witness :
  ruleB (str_of "f(" ++ fill shapeB [[LF; 32%N]; [9%N]] ++ str_of ")") =
  ruleB (str_of "f(") ++ replB ++ ruleB (str_of ")").
Proof.
  apply (proj2 (proj2 ruleB_any_whitespace)).
  unfold blank. repeat constructor.
Defined.

(** X2. Rule E rewrites every [const roleId = params.roleId], whatever
    follows it, into [const { roleId } = await params], and changes
    nothing in a text where it does not occur. *)
Theorem ruleE_replaces_statement :
  wordE = str_of "const roleId = params.roleId" /\
  replE = str_of "const { roleId } = await params" /\
  (forall pre rest : text,
      ruleE (pre ++ wordE ++ rest) = ruleE pre ++ replE ++ ruleE rest) /\
  (forall t : text,
      (forall pre rest : text, t <> pre ++ wordE ++ rest) -> ruleE t = t).
Proof.
  split; [done|]. split; [done|]. split.
  - intros pre rest. exact (stepE pre rest).
  - intros t H. apply sub_no_occurrence.
    destruct (occursb patE t) eqn:E; [|done].
    destruct (occursb_true _ _ E) as (pre & s2 & n & -> & Hn).
    unfold patE in Hn. rewrite <- (app_nil_r (map Chr wordE)) in Hn.
    destruct (match_word_inv _ _ _ _ Hn) as (rest & m & -> & Hm).
    by destruct (H pre rest).
Qed.

Lemma ruleE_replaces_statement_witness :
  ruleE (str_of "return roleId") = str_of "return roleId".
Proof.
  apply (proj2 (proj2 (proj2 ruleE_replaces_statement))).
  intros pre rest H. apply (f_equal length) in H.
  rewrite !length_app in H.
  change (length (str_of "return roleId")) with 13 in H.
  change (length wordE) with 28 in H. lia.
Defined.



(** X4. Each of the five rules is idempotent on its own. *)
Theorem rules_idempotent :
  forall t : text,
    ruleA (ruleA t) = ruleA t /\ ruleB (ruleB t) = ruleB t /\
    ruleC (ruleC t) = ruleC t /\ ruleD (ruleD t) = ruleD t /\
    ruleE (ruleE t) = ruleE t.
Proof.
  intros t. unfold ruleA, ruleB, ruleC, ruleD, ruleE.
  repeat split; apply sub_no_occurrence, sub_no_own_match;
    vm_compute; reflexivity.
Qed.





(** X7. Through the whole transform, [const id = parseInt(params.id)]
    becomes the two statements of rule C, wherever it stands: rules D and
    E leave them alone. *)
Theorem transform_parse_int_read :
  forall pre rest : text,
    transform (pre ++ wordC ++ rest) =
    transform pre ++ replC ++ transform rest.
Proof.
  intros pre rest. unfold transform. cbv zeta.
  rewrite (sub_passes patA replA wordC), (sub_passes patB replB wordC),
    stepC, (sub_passes patD replD replC), (sub_passes patE replE replC);
    [reflexivity | vm_compute; reflexivity ..].
Qed.

(** X8. Through the whole transform, [const id = params.id] that is not
    followed by a closing parenthesis becomes
    [const { id } = await params], wherever it stands. *)
Theorem transform_direct_read :
  forall pre rest : text,
    head rest <> Some (chr ")") ->
    transform (pre ++ wordD ++ rest) =
    transform pre ++ replD ++ transform rest.
Proof.
  intros pre rest H. unfold transform. cbv zeta.
  rewrite (sub_passes patA replA wordD), (sub_passes patB replB wordD),
    (sub_passes patC replC wordD);
    [| vm_compute; reflexivity ..].
  rewrite stepD, (sub_passes patE replE replD);
    [reflexivity | vm_compute; reflexivity |].
  rewrite patC_head. apply sub_head_other; [vm_compute; reflexivity|].
  rewrite patB_head. apply sub_head_other; [vm_compute; reflexivity|].
  rewrite patA_head. apply sub_head_other; [vm_compute; reflexivity|].
  exact H.
Qed.

Lemma transform_direct_read_witness :
  transform (str_of "  " ++ wordD ++ str_of ";") =
  transform (str_of "  ") ++ replD ++ transform (str_of ";").
Proof.
  apply transform_direct_read. vm_compute. discriminate.
Defined.

(** X9. Through the whole transform, [const id = params.id] directly
    followed by a closing parenthesis stays as it is, wherever it
    stands. *)
Theorem transform_keeps_read_before_paren :
  forall pre rest : text,
    transform (pre ++ wordD ++ chr ")" :: rest) =
    transform pre ++ wordD ++ chr ")" :: transform rest.
Proof.
  intros pre rest.
  pose proof (transform_passes (wordD ++ [chr ")"])) as E.
  specialize (E ltac:(vm_compute; reflexivity) ltac:(vm_compute; reflexivity)
                ltac:(vm_compute; reflexivity) ltac:(vm_compute; reflexivity)
                ltac:(vm_compute; reflexivity) pre rest).
  rewrite <- !app_assoc in E. exact E.
Qed.

(** X10. Through the whole transform, [const roleId = params.roleId]
    becomes [const { roleId } = await params], wherever it stands: none
    of the four rules before rule E touches it. *)
Theorem transform_role_id_read :
  forall pre rest : text,
    transform (pre ++ wordE ++ rest) =
    transform pre ++ replE ++ transform rest.
Proof.
  intros pre rest. unfold transform. cbv zeta.
  rewrite (sub_passes patA replA wordE), (sub_passes patB replB wordE),
    (sub_passes patC replC wordE), (sub_passes patD replD wordE), stepE;
    [reflexivity | vm_compute; reflexivity ..].
Qed.

End Occurrences.

(** ** The disk after a run *)

Section AfterRun.
Import Re Script Pass.

Lemma after_run_listed (w : world) (f : string) :
  f ∈ files_to_fix ->
  disk (main w).2 !! f = disk_after (disk w) f !! f.
Proof.
  intros Hin. rewrite main_world, disk_finish.
  by apply foldl_step_disk; [apply listed_nodup|].
Qed.

Lemma after_run_other (w : world) (f : string) :
  f ∉ files_to_fix -> disk (main w).2 !! f = disk w !! f.
Proof.
  intros Hnot. rewrite main_world, disk_finish. by apply foldl_step_other.
Qed.

Lemma disk_after_not_fixed (d : gmap string node) (f : string) :
  (forall c, outcome_of d f <> Fixed c) -> disk_after d f = d.
Proof.
  intros H. unfold disk_after.
  destruct (outcome_of d f) as [c| | |e] eqn:E; [|done..].
  by destruct (H c).
Qed.

(** What a pass leaves at a path is never something it would fix again. *)
Lemma outcome_after_not_fixed (d : gmap string node) (f : string) (c : text) :
  outcome_of (disk_after d f) f <> Fixed c.
Proof.
  unfold disk_after.
  destruct (outcome_of d f) as [c0| | |e] eqn:E.
  - destruct (outcome_fixed_inv _ _ _ E) as (data & Hd & ->).
    unfold outcome_of. rewrite lookup_insert_eq.
    destruct (decide _) as [Hne|_]; [|done].
    by destruct (Hne (transform_idem data)).
  - by rewrite E.
  - by rewrite E.
  - by rewrite E.
Qed.

Lemma foldl_step_disk_fix (l : list string) :
  forall (w : world),
    (forall f c, f ∈ l -> outcome_of (disk w) f <> Fixed c) ->
    disk (foldl step w l) = disk w.
Proof.
  induction l as [|x l IH]; intros w H; [done|].
  assert (Hx : disk (step w x) = disk w).
  { cbn [step disk]. apply disk_after_not_fixed.
    intros c. apply H, elem_of_cons. by left. }
  cbn [foldl]. rewrite IH; [exact Hx|].
  intros f c Hf. rewrite Hx. apply H, elem_of_cons. by right.
Qed.

(** X11. A run creates no file and deletes none, and it leaves as they
    are every path outside the list and every listed path that is
    missing, unreadable or read-only. *)
Theorem run_frame :
  forall w : world,
    dom (disk (main w).2) = dom (disk w) /\
    (forall f : string,
        f ∉ files_to_fix \/ disk w !! f = None \/
        (exists e, disk w !! f = Some (Broken e)) \/
        (exists data e, disk w !! f = Some (File data (Some e))) ->
        disk (main w).2 !! f = disk w !! f).
Proof.
  intros w. split.
  - apply set_eq. intros f. rewrite !elem_of_dom.
    destruct (decide (f ∈ files_to_fix)) as [Hin|Hnot];
      [|by rewrite after_run_other].
    rewrite (after_run_listed w f Hin). unfold disk_after.
    destruct (outcome_of (disk w) f) as [c| | |e] eqn:E; [|done..].
    destruct (outcome_fixed_inv _ _ _ E) as (data & Hd & ->).
    rewrite lookup_insert_eq, Hd. split; eauto.
  - intros f H.
    destruct (decide (f ∈ files_to_fix)) as [Hin|Hnot];
      [|by apply after_run_other].
    rewrite (after_run_listed w f Hin).
    rewrite disk_after_not_fixed; [done|].
    intros c Hc. destruct (outcome_fixed_inv _ _ _ Hc) as (data & Hd & _).
    destruct H as [H|[H|[(e & H)|(d0 & e & H)]]]; [done|congruence..].
Qed.

Lemma run_frame_witness :
  disk (main Samples.w_readonly).2 !! Samples.route =
  disk Samples.w_readonly !! Samples.route.
Proof.
  apply (proj2 (run_frame Samples.w_readonly)).
  right. right. right.
  exists (str_of "const id = params.id;"), Samples.denied.
  vm_compute. reflexivity.
Defined.

(** X12. A second run, right after a first one, changes nothing on the
    disk, whatever the first run did. *)
Theorem second_run_changes_nothing :
  forall w : world, disk (main (main w).2).2 = disk (main w).2.
Proof.
  intros w. rewrite (main_world (main w).2), disk_finish.
  apply foldl_step_disk_fix. intros f c Hin.
  rewrite (outcome_of_ext _ (disk_after (disk w) f) f
             (after_run_listed w f Hin)).
  apply outcome_after_not_fixed.
Qed.

(** X13. A run opens a file for writing only if the file is in the list,
    was read, and holds a text that the five rules change. *)
Theorem writes_only_changed_files :
  forall (w : world) (f : string),
    OpenWrite f ∈ calls (main w).2 ->
    OpenWrite f ∈ calls w \/
    (f ∈ files_to_fix /\
     exists data ro,
       disk w !! f = Some (File data ro) /\ transform data <> data).
Proof.
  intros w f H.
  rewrite main_world, calls_finish in H.
  rewrite (foldl_step_calls _ listed_nodup) in H.
  apply elem_of_app in H as [H|H]; [by left|]. right.
  apply list_elem_of_In, in_flat_map in H as (x & Hx & Hc).
  apply list_elem_of_In in Hx. unfold calls_of in Hc.
  destruct Hc as [Hc|Hc]; [discriminate|].
  destruct (disk w !! x) as [[data ro|e]|] eqn:E; [|done|done].
  destruct (decide (transform data <> data)) as [Hne|_]; [|done].
  destruct Hc as [[= ->]|[]]. eauto.
Qed.

Lemma writes_only_changed_files_witness :
  OpenWrite Samples.route ∈ calls Samples.w_direct \/
  (Samples.route ∈ files_to_fix /\
   exists data ro,
     disk Samples.w_direct !! Samples.route = Some (File data ro) /\
     transform data <> data).
Proof.
  apply writes_only_changed_files.
  apply list_elem_of_In. vm_compute. right. left. reflexivity.
Defined.

(** X14. After a run, every listed file that is readable and writable
    holds the transform of what it held, and no match of any of the five
    patterns is left in it. *)
Theorem after_run_file_is_migrated :
  forall (w : world) (f : string) (data : text),
    f ∈ files_to_fix ->
    disk w !! f = Some (File data None) ->
    disk (main w).2 !! f = Some (File (transform data) None) /\
    occursb patA (transform data) = false /\
    occursb patB (transform data) = false /\
    occursb patC (transform data) = false /\
    occursb patD (transform data) = false /\
    occursb patE (transform data) = false.
Proof.
  intros w f data Hin Hd. split; [|apply transform_no_match].
  rewrite (after_run_listed w f Hin). unfold disk_after, outcome_of.
  rewrite Hd.
  destruct (decide (transform data <> data)) as [Hne|Heq].
  - apply lookup_insert_eq.
  - rewrite Hd. destruct (decide (transform data = data)) as [->|Hne];
      [done | by destruct (Heq Hne)].
Qed.

Lemma after_run_file_is_migrated_witness :
  disk (main Samples.w_direct).2 !! Samples.route =
  Some (File (transform (str_of "const id = params.id;")) None).
Proof.
  refine (proj1 (after_run_file_is_migrated Samples.w_direct Samples.route
                   (str_of "const id = params.id;") _ _)).
  - apply (bool_decide_unpack _). vm_compute. reflexivity.
  - vm_compute. reflexivity.
Defined.

End AfterRun.

(** ** Where the patterns do not reach *)

Section Limits.
Import Re Script Pass.

Lemma patA_parts :
  patA = pattern_of shapeA1 ++ Chr (chr ":") :: tail (pattern_of shapeA2).
Proof. vm_compute. reflexivity. Qed.

Lemma shapeA1_head : shapeA1 = C (chr "{") :: tail shapeA1.
Proof. vm_compute. reflexivity. Qed.

Lemma shapeA1_well_spaced : well_spaced shapeA1 = true.
Proof. vm_compute. reflexivity. Qed.

Lemma shapeA1_inside : never_starts patA (tail shapeA1) = true.
Proof. vm_compute. reflexivity. Qed.

Lemma shapeA2_inside : never_starts patA shapeA2 = true.
Proof. vm_compute. reflexivity. Qed.

Lemma space_is_not (x c : char) :
  is_space x = true -> is_space c = false -> (x =? c)%N = false.
Proof. intros Hx Hc. apply N.eqb_neq. intros ->. congruence. Qed.

(** With white space between the closing brace and the colon, the
    pattern of rule A does not match. *)
Lemma no_match_before_colon (ws : list text) (x : char) (s : text) :
  Forall blank ws -> is_space x = true ->
  match_at patA (fill shapeA1 ws ++ x :: s) = None.
Proof.
  intros Hws Hx.
  rewrite patA_parts, (match_fill _ _ _ _ shapeA1_well_spaced Hws).
  rewrite match_at_chr_cons, (space_is_not x (chr ":") Hx eq_refl).
  reflexivity.
Qed.

(** X16. Rule A allows no white space between the first closing brace
    and the colon: a signature written [{ params } : { ... }], with any
    white space elsewhere, is left as it is. *)
Theorem ruleA_needs_colon_at_brace :
  forall (ws1 ws2 : list text) (x : char),
    Forall blank ws1 -> Forall blank ws2 -> is_space x = true ->
    ruleA (fill shapeA1 ws1 ++ x :: fill shapeA2 ws2) =
    fill shapeA1 ws1 ++ x :: fill shapeA2 ws2.
Proof.
  intros ws1 ws2 x H1 H2 Hx. unfold ruleA.
  pose proof (no_match_before_colon ws1 x (fill shapeA2 ws2) H1 Hx) as E0.
  rewrite shapeA1_head, fill_C in E0 |- *.
  cbn [app] in E0 |- *. rewrite (sub_keep _ _ _ _ E0). f_equal.
  rewrite (sub_copy_shape patA replA _ _ shapeA1_inside ws1 H1). f_equal.
  assert (Ex : match_at patA (x :: fill shapeA2 ws2) = None).
  { rewrite patA_head, match_at_chr_cons.
    by rewrite (space_is_not x (chr "{") Hx eq_refl). }
  rewrite (sub_keep _ _ _ _ Ex). f_equal.
  rewrite <- (app_nil_r (fill shapeA2 ws2)) at 1.
  rewrite (sub_copy_shape patA replA [] _ shapeA2_inside ws2 H2).
  rewrite patA_head, sub_nil. apply app_nil_r.
Qed.

Lemma ruleA_needs_colon_at_brace_witness :
  ruleA (fill shapeA1 [] ++ 32%N :: fill shapeA2 []) =
  fill shapeA1 [] ++ 32%N :: fill shapeA2 [].
Proof.
  apply ruleA_needs_colon_at_brace; [constructor | constructor |].
  vm_compute. reflexivity.
Defined.



End Limits.
